(** * archive-patcher: the native bsdiff wrapper (bsdiff_jni.cc)

    A shallow embedding of
    generator/src/main/java/com/google/archivepatcher/generator/bsdiff/wrapper/bsdiff_jni.cc
    and the properties of its resource handling and error reporting.

    The wrapper is straight-line C++ over three collaborators: the POSIX
    file interface (open, fstat, mmap, close, munmap), the JNI environment
    (strings, byte arrays, ThrowNew) and the bsdiff encoder.  The program
    is embedded as a state monad over a [State] that holds the descriptor
    table, the native memory regions, the Java heap and the chronological
    trace of the calls made; the collaborators' answers come from a
    [World], each answer a function of the trace so far. *)

From Stdlib Require Import ZArith String List.
From Stdlib.Strings Require Import Byte.
From stdpp Require Import gmap strings list fin_maps.

Open Scope Z_scope.
Set Warnings "-clear-no-such-hyp".

(** ** Data model *)

(** The phases an error is attributed to.  The source raises one Java
    exception class, NativeBsDiffException, and tells the situations apart
    by message; each [ThrowNew] below carries both. *)
Inductive Phase :=
| Open | Stat | SizeCheck | Map | Unmap | Close
| AlgorithmFailure | ArgumentMissing.

Global Instance Phase_eq_dec : EqDecision Phase.
Proof. solve_decision. Defined.

(** What backs a readable region of native memory. *)
Inductive Region :=
| MappedFile (len : Z) (contents : list byte)
| OwnedCopy (contents : list byte).

Definition region_bytes (r : Region) : list byte :=
  match r with
  | MappedFile _ c => c
  | OwnedCopy c => c
  end.

(** The calls that leave the wrapper, in the order they are made. *)
Inductive Event :=
| EvOpen (path : string) (r : option nat)
| EvFstat (fd : nat) (r : option Z)
| EvMmap (fd : nat) (len : Z) (r : option positive)
| EvClose (fd : nat) (rc : Z)
| EvMunmap (p : positive) (len : Z)
| EvNew (p : positive) (n : Z)
| EvDelete (p : positive)
| EvThrowNew (ph : Phase) (msg : string)
| EvBsdiff (old_bytes new_bytes : list byte) (min_length : Z) (r : Z).

(** A [jstring] argument is represented by what [GetStringUTFChars] hands
    out for it: the characters, or [None] for a null pointer. *)
Definition jstring := option string.

Record State := mkState {
  st_fds   : gset nat;                  (* open file descriptors *)
  st_mem   : gmap positive Region;      (* mappings and owned buffers *)
  st_utf   : nat;                       (* GetStringUTFChars not yet released *)
  st_jheap : gmap positive (list byte); (* Java byte arrays *)
  st_trace : list Event
}.

(** The environment.  [w_size_max] is std::numeric_limits<size_t>::max();
    [w_uninit] is the content of an uninitialised size_t local. *)
Record World := mkWorld {
  w_size_max : Z;
  w_uninit   : Z;
  w_open     : list Event → string → bool;
  w_fstat    : list Event → nat → option Z;
  w_mmap     : list Event → nat → Z → option (list byte);
  w_close    : list Event → nat → bool;
  w_bsdiff   : list byte → list byte → Z → Z * list byte
}.

(** ** The state monad *)

Definition M (A : Type) : Type := State → A * State.

Global Instance M_ret : MRet M := λ A (a : A) s, (a, s).
Global Instance M_bind : MBind M :=
  λ A B (f : A → M B) (m : M A) s, let '(a, s') := m s in f a s'.

(** The empty statement, and a conditional without an else branch. *)
Definition skip : M unit := mret tt.
Definition when (b : bool) (m : M unit) : M unit := if b then m else skip.

Definition log (e : Event) : M unit := λ s,
  (tt, mkState (st_fds s) (st_mem s) (st_utf s) (st_jheap s)
               (st_trace s ++ [e])).

(** ** Read-outs of a state *)

Definition thrown_of (e : Event) : option Phase :=
  match e with
  | EvThrowNew ph _ => Some ph
  | _ => None
  end.

(** The errors raised so far, oldest first. *)
Definition raised_in (t : list Event) : list Phase := omap thrown_of t.
Definition raised (s : State) : list Phase := raised_in (st_trace s).

(** Descriptors, mappings and owned buffers currently held. *)
Definition open_resources (s : State) : nat := size (st_fds s) + size (st_mem s).

(** C integer conversions. *)
Definition to_uint64 (z : Z) : Z := z mod 2 ^ 64.
Definition to_size_t (size_max z : Z) : Z := z mod (size_max + 1).

(** The conversion to jsize, a signed 32-bit integer: the value modulo
    2^32 that lies in [-2^31, 2^31). *)
Definition to_jsize (z : Z) : Z := (z + 2 ^ 31) mod 2 ^ 32 - 2 ^ 31.

Section Wrapper.
Context (w : World).

(** ** POSIX *)

(** open(2), read-only: the new descriptor on success, [None] for -1. *)
Definition sys_open (path : string) : M (option nat) := λ s,
  if w_open w (st_trace s) path then
    let fd := fresh (st_fds s) in
    (Some fd, mkState ({[fd]} ∪ st_fds s) (st_mem s) (st_utf s) (st_jheap s)
                      (st_trace s ++ [EvOpen path (Some fd)]))
  else
    (None, mkState (st_fds s) (st_mem s) (st_utf s) (st_jheap s)
                   (st_trace s ++ [EvOpen path None])).

(** fstat(2): [Some st_size] when it returns 0. *)
Definition sys_fstat (fd : nat) : M (option Z) := λ s,
  let r := w_fstat w (st_trace s) fd in
  (r, mkState (st_fds s) (st_mem s) (st_utf s) (st_jheap s)
              (st_trace s ++ [EvFstat fd r])).

(** mmap(2) with PROT_READ, MAP_SHARED, offset 0: the address of the new
    mapping, [None] for MAP_FAILED.  A zero length is refused (EINVAL);
    otherwise the world decides, and supplies the bytes seen through the
    mapping. *)
Definition sys_mmap (len : Z) (fd : nat) : M (option positive) := λ s,
  match (if decide (len = 0) then None else w_mmap w (st_trace s) fd len) with
  | Some contents =>
      let p := fresh (dom (st_mem s)) in
      (Some p, mkState (st_fds s) (<[p := MappedFile len contents]> (st_mem s))
                       (st_utf s) (st_jheap s)
                       (st_trace s ++ [EvMmap fd len (Some p)]))
  | None =>
      (None, mkState (st_fds s) (st_mem s) (st_utf s) (st_jheap s)
                     (st_trace s ++ [EvMmap fd len None]))
  end.

(** close(2): returns 0, or -1 when the world makes it fail.  The
    descriptor is released whatever the return value, as on Linux. *)
Definition sys_close (fd : nat) : M Z := λ s,
  let rc := if w_close w (st_trace s) fd then 0 else -1 in
  (rc, mkState (st_fds s ∖ {[fd]}) (st_mem s) (st_utf s) (st_jheap s)
               (st_trace s ++ [EvClose fd rc])).

(** munmap(2): removes the mapping that starts at [p] when [len] is its
    length; any other call changes nothing (EINVAL). *)
Definition sys_munmap (p : positive) (len : Z) : M unit := λ s,
  let mem' :=
    match st_mem s !! p with
    | Some (MappedFile l _) => if decide (l = len) then delete p (st_mem s) else st_mem s
    | _ => st_mem s
    end in
  (tt, mkState (st_fds s) mem' (st_utf s) (st_jheap s)
               (st_trace s ++ [EvMunmap p len])).

(** ** JNI *)

Definition ThrowNew (ph : Phase) (msg : string) : M unit := log (EvThrowNew ph msg).

Definition GetStringUTFChars (js : jstring) : M (option string) := λ s,
  match js with
  | Some chars =>
      (Some chars, mkState (st_fds s) (st_mem s) (S (st_utf s)) (st_jheap s) (st_trace s))
  | None => (None, s)
  end.

Definition ReleaseStringUTFChars (chars : string) : M unit := λ s,
  (tt, mkState (st_fds s) (st_mem s) (Nat.pred (st_utf s)) (st_jheap s) (st_trace s)).

(** A null native pointer. *)
Definition nullptr : option positive := None.

(** ** MapFile (lines 37-91)

    [filesize] is the content of the caller's size_t before the call; the
    second component of the result is its content after. *)
Definition MapFile (filename : string) (filesize : Z) : M (option positive * Z) :=
  fd ← sys_open filename;
  match fd with
  | None =>
      _ ← ThrowNew Open ("Unable to open file for mapping: " ++ filename);
      mret (nullptr, filesize)
  | Some fd =>
      st ← sys_fstat fd;
      match st with
      | None =>
          _ ← ThrowNew Stat ("Unable to perform fstat() on file: " ++ filename);
          mret (nullptr, filesize)
      | Some st_size =>
          if decide (to_uint64 st_size > w_size_max w) then
            _ ← ThrowNew SizeCheck ("File too large: " ++ filename);
            _ ← sys_close fd;
            mret (nullptr, filesize)
          else
            let filesize := to_size_t (w_size_max w) st_size in
            ret ← sys_mmap (to_size_t (w_size_max w) st_size) fd;
            match ret with
            | None =>
                rc ← sys_close fd;
                _ ← when (bool_decide (rc ≠ 0))
                      (ThrowNew Close
                         ("Unable to close file after map failed: " ++ filename));
                _ ← ThrowNew Map ("Mapping the file has failed: " ++ filename);
                mret (nullptr, filesize)
            | Some p =>
                rc ← sys_close fd;
                if decide (rc ≠ 0) then
                  _ ← ThrowNew Close ("Unable to close file: " ++ filename);
                  mret (nullptr, filesize)
                else mret (Some p, filesize)
            end
      end
  end.

(** ** Native buffers and Java byte arrays *)

(** The bytes at [p .. p + size). *)
Definition read_buf (p : positive) (size : Z) (s : State) : list byte :=
  take (Z.to_nat size) (from_option region_bytes [] (st_mem s !! p)).

(** absl::make_unique<uint8_t[]>(n): a new value-initialised array.
    Allocation is taken to succeed. *)
Definition make_unique (n : Z) : M positive := λ s,
  let p := fresh (dom (st_mem s)) in
  (p, mkState (st_fds s) (<[p := OwnedCopy (replicate (Z.to_nat n) x00)]> (st_mem s))
              (st_utf s) (st_jheap s) (st_trace s ++ [EvNew p n])).

(** The destructor of the std::unique_ptr<uint8_t[]> that holds [p]. *)
Definition unique_ptr_delete (p : positive) : M unit := λ s,
  (tt, mkState (st_fds s) (delete p (st_mem s)) (st_utf s) (st_jheap s)
               (st_trace s ++ [EvDelete p])).

Definition GetArrayLength (arr : positive) : M Z := λ s,
  (Z.of_nat (length (default [] (st_jheap s !! arr))), s).

(** Copies arr[start .. start + len) to the native buffer [buf]. *)
Definition GetByteArrayRegion (arr : positive) (start len : Z) (buf : positive)
  : M unit := λ s,
  let src := take (Z.to_nat len) (drop (Z.to_nat start) (default [] (st_jheap s !! arr))) in
  let mem' :=
    match st_mem s !! buf with
    | Some (OwnedCopy c) =>
        <[buf := OwnedCopy (src ++ drop (Z.to_nat len) c)]> (st_mem s)
    | _ => st_mem s
    end in
  (tt, mkState (st_fds s) mem' (st_utf s) (st_jheap s) (st_trace s)).

(** A null jbyteArray. *)
Definition null_array : option positive := None.

(** NewByteArray(len) for a jsize [n]: a new Java byte array of [n] zero
    bytes, or null when [n] is negative (the JVM then raises its own
    exception, which is no call of the wrapper and is not in the trace).
    For a length that is not negative, construction of the array is taken
    to succeed: exhaustion of the Java heap is not modelled. *)
Definition NewByteArray (n : Z) : M (option positive) := λ s,
  if decide (n < 0) then (null_array, s)
  else
    let r := fresh (dom (st_jheap s)) in
    (Some r, mkState (st_fds s) (st_mem s) (st_utf s)
                     (<[r := replicate (Z.to_nat n) x00]> (st_jheap s))
                     (st_trace s)).

(** Copies buf[0 .. len) to arr[start .. start + len).  JNI does not define
    the call on a null array; the model gives it the mildest outcome, no
    effect.  A region that does not lie within the array copies nothing. *)
Definition SetByteArrayRegion (arr : option positive) (start len : Z)
    (buf : list byte) : M unit := λ s,
  let jheap' :=
    match arr with
    | Some a =>
        match st_jheap s !! a with
        | Some c =>
            if decide (0 ≤ start ∧ 0 ≤ len ∧ start + len ≤ Z.of_nat (length c)) then
              <[a := take (Z.to_nat start) c ++ take (Z.to_nat len) buf
                     ++ drop (Z.to_nat (start + len)) c]> (st_jheap s)
            else st_jheap s
        | None => st_jheap s
        end
    | None => st_jheap s
    end in
  (tt, mkState (st_fds s) (st_mem s) (st_utf s) jheap' (st_trace s)).

(** ** The encoder *)

(** bsdiff::bsdiff over the two buffers with an Endsley patch writer that
    appends to [patch]: the return code and the bytes written. *)
Definition bsdiff (old_buf : positive) (old_size : Z)
    (new_buf : positive) (new_size : Z) (min_length : Z) : M (Z * list byte) := λ s,
  let old_bytes := read_buf old_buf old_size s in
  let new_bytes := read_buf new_buf new_size s in
  let r := w_bsdiff w old_bytes new_bytes min_length in
  (r, mkState (st_fds s) (st_mem s) (st_utf s) (st_jheap s)
              (st_trace s ++ [EvBsdiff old_bytes new_bytes min_length r.1])).

(** ** GeneratePatch (lines 93-115)

    patch.size() is a size_t and the length parameters of NewByteArray and
    SetByteArrayRegion are jsize: both calls receive the size converted to
    a signed 32-bit integer, and the array NewByteArray returns is used
    and returned without a test for null. *)
Definition GeneratePatch (old_buf : positive) (old_size : Z)
    (new_buf : positive) (new_size : Z) : M (option positive) :=
  '(bsdiff_return_value, patch) ← bsdiff old_buf old_size new_buf new_size 16;
  if decide (bsdiff_return_value ≠ 0) then
    _ ← ThrowNew AlgorithmFailure "BsDiff has failed during generation.";
    mret null_array
  else
    result ← NewByteArray (to_jsize (Z.of_nat (length patch)));
    _ ← SetByteArrayRegion result 0 (to_jsize (Z.of_nat (length patch))) patch;
    mret result.

(** ** nativeGeneratePatchFile (lines 118-160) *)
Definition nativeGeneratePatchFile (old_filename new_filename : jstring)
  : M (option positive) :=
  old_file ← GetStringUTFChars old_filename;
  new_file ← GetStringUTFChars new_filename;
  match old_file, new_file with
  | Some old_file, Some new_file =>
      '(old_buf, old_size) ← MapFile old_file (w_uninit w);
      '(new_buf, new_size) ← MapFile new_file (w_uninit w);
      _ ← ReleaseStringUTFChars old_file;
      _ ← ReleaseStringUTFChars new_file;
      match old_buf with
      | None =>                                     (* if (!old_buf) *)
          _ ← match new_buf with
              | Some new_buf =>                     (* if (new_buf) *)
                  sys_munmap new_buf new_size       (* Ignore error on error. *)
              | None => skip
              end;
          mret null_array
      | Some old_buf =>
          match new_buf with
          | None =>                                 (* if (!new_buf) *)
              (* if (old_buf), which holds here *)
              _ ← sys_munmap old_buf old_size;      (* ignore error on error. *)
              mret null_array
          | Some new_buf =>
              result ← GeneratePatch old_buf old_size new_buf new_size;
              _ ← sys_munmap old_buf old_size;
              _ ← sys_munmap new_buf new_size;
              mret result
          end
      end
  | _, _ =>
      _ ← ThrowNew ArgumentMissing "Unable to retrieve one of the diff files.";
      mret null_array
  end.

(** ** nativeGeneratePatchData (lines 162-178) *)
Definition nativeGeneratePatchData (old_data new_data : positive)
  : M (option positive) :=
  old_size ← GetArrayLength old_data;
  new_size ← GetArrayLength new_data;
  old_buf ← make_unique old_size;
  new_buf ← make_unique new_size;
  _ ← GetByteArrayRegion old_data 0 old_size old_buf;
  _ ← GetByteArrayRegion new_data 0 new_size new_buf;
  result ← GeneratePatch old_buf old_size new_buf new_size;
  (* the two unique_ptr go out of scope, last declared first *)
  _ ← unique_ptr_delete new_buf;
  _ ← unique_ptr_delete old_buf;
  mret result.

End Wrapper.

Arguments sys_munmap : simpl never.
Arguments MapFile : simpl never.
Arguments GeneratePatch : simpl never.
Arguments to_jsize : simpl never.

(** ** Worlds given by a table of files

    For concrete runs: how each path behaves, whichever descriptor it is
    opened on. *)
Record File := mkFile {
  f_open  : bool;                (* open succeeds *)
  f_stat  : option Z;            (* st_size when fstat succeeds *)
  f_map   : option (list byte);  (* the bytes when mmap succeeds *)
  f_close : bool                 (* close returns 0 *)
}.

(** The path the descriptor [fd] was last opened on. *)
Fixpoint path_of_fd (t : list Event) (fd : nat) : option string :=
  match t with
  | [] => None
  | e :: t' =>
      match path_of_fd t' fd with
      | Some path => Some path
      | None =>
          match e with
          | EvOpen path (Some fd') => if decide (fd' = fd) then Some path else None
          | _ => None
          end
      end
  end.

Definition world_of_files (size_max : Z) (files : string → File)
    (encoder : list byte → list byte → Z → Z * list byte) : World :=
  {| w_size_max := size_max;
     w_uninit := 0;
     w_open := λ _ path, f_open (files path);
     w_fstat := λ t fd, path ← path_of_fd t fd; f_stat (files path);
     w_mmap := λ t fd _, path ← path_of_fd t fd; f_map (files path);
     w_close := λ t fd, from_option (λ path, f_close (files path)) true (path_of_fd t fd);
     w_bsdiff := encoder |}.

(** The state before anything is acquired. *)
Definition initial : State := mkState ∅ ∅ 0 ∅ [].

Definition SIZE_MAX_64 : Z := 2 ^ 64 - 1.
Definition SIZE_MAX_32 : Z := 2 ^ 32 - 1.

Definition good_file (c : list byte) : File :=
  mkFile true (Some (Z.of_nat (length c))) (Some c) true.
Definition missing_file : File := mkFile false None None true.

(** An encoder that accepts everything and writes one byte per input byte. *)
Definition echo_encoder (o n : list byte) (m : Z) : Z * list byte := (0, o ++ n).
Definition failing_encoder (o n : list byte) (m : Z) : Z * list byte := (1, o).

(** A small file system: two good files, one whose fstat fails, one whose
    mmap and close fail, one whose close fails after a successful mmap, one
    of 4 GiB, and nothing else. *)
Definition files1 (path : string) : File :=
  if String.eqb path "old" then good_file [x41; x42; x43]
  else if String.eqb path "new" then good_file [x41; x42; x58; x59]
  else if String.eqb path "nostat" then mkFile true None None true
  else if String.eqb path "nomap" then mkFile true (Some 8) None false
  else if String.eqb path "noclose" then mkFile true (Some 2) (Some [x41; x42]) false
  else if String.eqb path "huge" then mkFile true (Some (2 ^ 32)) None true
  else missing_file.

Definition world64 : World := world_of_files SIZE_MAX_64 files1 echo_encoder.
Definition world32 : World := world_of_files SIZE_MAX_32 files1 echo_encoder.
Definition world64_failing : World :=
  world_of_files SIZE_MAX_64 files1 failing_encoder.

(** A Java heap with two arrays. *)
Definition two_arrays : State :=
  mkState ∅ ∅ 0 (<[1%positive := [x41; x42; x43]]> (<[2%positive := [x41; x58]]> ∅)) [].

(** The same file system with one more file, whose mmap fails and whose
    close succeeds. *)
Definition files2 (path : string) : File :=
  if String.eqb path "nomap_closed" then mkFile true (Some 8) None true
  else files1 path.

Definition world64_more : World := world_of_files SIZE_MAX_64 files2 echo_encoder.

(** An encoder in the manner of an uncompressed patch writer: it accepts
    everything and writes [header] bytes followed by the new bytes. *)
Definition storing_encoder (header : Z) (o n : list byte) (m : Z) : Z * list byte :=
  (0, replicate (Z.to_nat header) x00 ++ n).

Definition world64_storing (header : Z) : World :=
  world_of_files SIZE_MAX_64 files1 (storing_encoder header).

(** A Java heap with an empty array and an array of 2^31 - 16 bytes. *)
Definition large_array : State :=
  mkState ∅ ∅ 0
    (<[2%positive := replicate (Z.to_nat (2 ^ 31 - 16)) x00]> (<[1%positive := []]> ∅))
    [].

(** ** Observations on traces *)

(** What a run from [s] to [s'] added to the trace. *)
Definition events_since (s s' : State) : list Event :=
  drop (length (st_trace s)) (st_trace s').

Definition opened_of (e : Event) : option string :=
  match e with EvOpen path _ => Some path | _ => None end.
Definition closed_of (e : Event) : option nat :=
  match e with EvClose fd _ => Some fd | _ => None end.
Definition mapped_of (e : Event) : option nat :=
  match e with EvMmap fd _ _ => Some fd | _ => None end.
Definition unmapped_of (e : Event) : option (positive * Z) :=
  match e with EvMunmap p len => Some (p, len) | _ => None end.
Definition encoder_call_of (e : Event) : option Z :=
  match e with EvBsdiff _ _ min_length _ => Some min_length | _ => None end.

(** The paths open was called on, the descriptors close and mmap were
    called on, the regions munmap was called on and the minimum match
    lengths the encoder was called with, each oldest first. *)
Definition opens (t : list Event) : list string := omap opened_of t.
Definition closes (t : list Event) : list nat := omap closed_of t.
Definition mmaps (t : list Event) : list nat := omap mapped_of t.
Definition munmaps (t : list Event) : list (positive * Z) := omap unmapped_of t.
Definition encoder_calls (t : list Event) : list Z := omap encoder_call_of t.

(** What an acquisition hands to the caller for release. *)
Definition released (r : option positive * Z) : list (positive * Z) :=
  match r.1 with
  | Some p => [(p, r.2)]
  | None => []
  end.

Definition unmap_event (x : positive * Z) : Event := EvMunmap x.1 x.2.

(** What GeneratePatch logs after the encoder returned [rc]. *)
Definition failure_events (rc : Z) : list Event :=
  if decide (rc ≠ 0)
  then [EvThrowNew AlgorithmFailure "BsDiff has failed during generation."]
  else [].

(** The contents of a Java byte array. *)
Definition array_bytes (s : State) (arr : positive) : list byte :=
  default [] (st_jheap s !! arr).

(** The message of an error ends with the name of the file. *)
Definition names_file (filename : string) (e : Event) : Prop :=
  match e with
  | EvThrowNew _ msg => ∃ prefix, msg = (prefix ++ filename)%string
  | _ => True
  end.

(** The errors one call of MapFile can raise when it fails. *)
Definition MapFile_failures : list (list Phase) :=
  [[Open]; [Stat]; [SizeCheck]; [Map]; [Close; Map]; [Close]].

(** * Properties *)

Lemma events_since_app s s' evs :
  st_trace s' = st_trace s ++ evs → events_since s s' = evs.
Proof. unfold events_since. intros ->. by rewrite drop_app_length. Qed.

Ltac unfold_prims :=
  unfold sys_open, sys_fstat, sys_mmap, sys_close, sys_munmap, ThrowNew, log,
    when, skip, mbind, M_bind, mret, M_ret in *.

Lemma fresh_fd_released (fds : gset nat) :
  ({[fresh fds]} ∪ fds) ∖ {[fresh fds]} = fds.
Proof. pose proof (is_fresh fds). set_solver. Qed.

Lemma fresh_region_free (mem : gmap positive Region) :
  mem !! fresh (dom mem) = None.
Proof. apply not_elem_of_dom, is_fresh. Qed.

(** Whatever path it takes, [MapFile] calls open once and neither munmap
    nor the encoder; it leaves the Java side and the regions that exist
    alone; when it returns a pointer, that is a new mapping of the length
    it stored, the descriptor is closed again and nothing was raised; when
    it returns null, an error was raised. *)
Lemma MapFile_spec w filename filesize s r s' :
  MapFile w filename filesize s = (r, s') →
  ∃ evs, st_trace s' = st_trace s ++ evs
    ∧ opens evs = [filename] ∧ munmaps evs = [] ∧ encoder_calls evs = []
    ∧ st_utf s' = st_utf s ∧ st_jheap s' = st_jheap s
    ∧ st_mem s ⊆ st_mem s'
    ∧ match r.1 with
      | Some p =>
          st_fds s' = st_fds s ∧ st_mem s !! p = None
          ∧ (∃ c, st_mem s' = <[p := MappedFile r.2 c]> (st_mem s))
          ∧ raised_in evs = []
      | None => raised_in evs ≠ []
      end.
Proof.
  unfold MapFile. unfold_prims. intros H.
  repeat (case_match; simplify_eq/=);
    rewrite <- ?app_assoc; simpl; (eexists; split; [reflexivity|]);
    split_and!; try done;
    try (apply insert_subseteq, fresh_region_free).
  - apply fresh_fd_released.
  - apply fresh_region_free.
  - eauto.
Qed.

(** Stepping through a bind with the outcome of its first action. *)
Lemma run_bind {A B} (m : M A) (f : A → M B) s a s1 :
  m s = (a, s1) → (x ← m; f x) s = f a s1.
Proof. unfold mbind, M_bind. by intros ->. Qed.

Ltac step H := rewrite (run_bind _ _ _ _ _ H); simpl.

(** What each system call leaves behind. *)
Lemma sys_open_Some w path s fd s1 :
  sys_open w path s = (Some fd, s1) →
  fd = fresh (st_fds s)
  ∧ s1 = mkState ({[fd]} ∪ st_fds s) (st_mem s) (st_utf s) (st_jheap s)
                 (st_trace s ++ [EvOpen path (Some fd)]).
Proof. unfold sys_open. case_match; naive_solver. Qed.

Lemma sys_open_None w path s s1 :
  sys_open w path s = (None, s1) →
  s1 = mkState (st_fds s) (st_mem s) (st_utf s) (st_jheap s)
               (st_trace s ++ [EvOpen path None]).
Proof. unfold sys_open. case_match; naive_solver. Qed.

Lemma sys_fstat_inv w fd s r s1 :
  sys_fstat w fd s = (r, s1) →
  s1 = mkState (st_fds s) (st_mem s) (st_utf s) (st_jheap s)
               (st_trace s ++ [EvFstat fd r]).
Proof. unfold sys_fstat. naive_solver. Qed.

Lemma sys_mmap_None w len fd s s1 :
  sys_mmap w len fd s = (None, s1) →
  s1 = mkState (st_fds s) (st_mem s) (st_utf s) (st_jheap s)
               (st_trace s ++ [EvMmap fd len None]).
Proof. unfold sys_mmap. case_match; naive_solver. Qed.

Lemma sys_close_inv w fd s rc s1 :
  sys_close w fd s = (rc, s1) →
  s1 = mkState (st_fds s ∖ {[fd]}) (st_mem s) (st_utf s) (st_jheap s)
               (st_trace s ++ [EvClose fd rc]).
Proof. unfold sys_close. naive_solver. Qed.

Ltac run_throws :=
  unfold when, skip, ThrowNew, log, mbind, M_bind, mret, M_ret; simpl;
  rewrite <- ?app_assoc; simpl.

Section MapFile_paths.
Context (w : World) (s : State) (filename : string) (filesize : Z).

(** X1.  When open fails, MapFile raises the Open error, whose message
    names the file, and returns null; it makes no further call, leaves the
    caller's size as it was and holds nothing. *)
Lemma MapFile_open_failure s1 :
  sys_open w filename s = (None, s1) →
  ∃ s', MapFile w filename filesize s = (nullptr, filesize, s')
        ∧ events_since s s' =
            [EvOpen filename None;
             EvThrowNew Open ("Unable to open file for mapping: " ++ filename)]
        ∧ st_fds s' = st_fds s ∧ st_mem s' = st_mem s.
Proof.
  unfold MapFile. intros Ho. step Ho.
  apply sys_open_None in Ho as ->. run_throws.
  eexists; split; [reflexivity|]. simpl. split_and!; try done.
  by apply events_since_app.
Qed.

(** C1 (as the code has it).  When open succeeds and fstat fails, MapFile
    raises the Stat error and returns null, but it never calls close: the
    descriptor it opened is still open when it returns. *)
Theorem MapFile_stat_failure_keeps_descriptor fd s1 s2 :
  sys_open w filename s = (Some fd, s1) →
  sys_fstat w fd s1 = (None, s2) →
  ∃ s', MapFile w filename filesize s = (nullptr, filesize, s')
        ∧ events_since s s' =
            [EvOpen filename (Some fd); EvFstat fd None;
             EvThrowNew Stat ("Unable to perform fstat() on file: " ++ filename)]
        ∧ raised_in (events_since s s') = [Stat]
        ∧ closes (events_since s s') = []
        ∧ (fd ∉ st_fds s) ∧ (fd ∈ st_fds s').
Proof.
  unfold MapFile. intros Ho Hs. step Ho. step Hs.
  apply sys_fstat_inv in Hs as ->. apply sys_open_Some in Ho as [-> ->].
  run_throws. eexists; split; [reflexivity|]. simpl.
  erewrite events_since_app by done.
  split_and!; try done.
  - apply is_fresh.
  - set_solver.
Qed.

(** C2 (as the code has it).  When mmap fails and the close that follows
    fails too, MapFile raises the Close error and then, without returning,
    the Map error as well: two errors are raised, the Map error last, the
    second while the first is still pending. *)
Theorem MapFile_map_and_close_failure fd s1 st_size s2 s3 rc s4 :
  sys_open w filename s = (Some fd, s1) →
  sys_fstat w fd s1 = (Some st_size, s2) →
  ¬ (to_uint64 st_size > w_size_max w) →
  sys_mmap w (to_size_t (w_size_max w) st_size) fd s2 = (None, s3) →
  sys_close w fd s3 = (rc, s4) →
  rc ≠ 0 →
  ∃ s', MapFile w filename filesize s
          = (nullptr, to_size_t (w_size_max w) st_size, s')
        ∧ events_since s s' =
            [EvOpen filename (Some fd); EvFstat fd (Some st_size);
             EvMmap fd (to_size_t (w_size_max w) st_size) None;
             EvClose fd rc;
             EvThrowNew Close
               ("Unable to close file after map failed: " ++ filename);
             EvThrowNew Map ("Mapping the file has failed: " ++ filename)]
        ∧ raised_in (events_since s s') = [Close; Map].
Proof.
  unfold MapFile. intros Ho Hs Hsz Hm Hc Hrc. step Ho. step Hs.
  rewrite decide_False by done. step Hm. step Hc.
  rewrite bool_decide_true by done.
  apply sys_close_inv in Hc as ->. apply sys_mmap_None in Hm as ->.
  apply sys_fstat_inv in Hs as ->. apply sys_open_Some in Ho as [-> ->].
  run_throws. eexists; split; [reflexivity|]. simpl.
  erewrite events_since_app by done. done.
Qed.

(** C9.  When the size fstat reports, read as a uint64_t, exceeds the
    largest size_t, MapFile raises the SizeCheck error, closes the
    descriptor and returns null; mmap is never called, so no mapping is
    created, and neither the descriptor table nor the memory differs from
    before the call. *)
Theorem MapFile_size_check fd s1 st_size s2 :
  sys_open w filename s = (Some fd, s1) →
  sys_fstat w fd s1 = (Some st_size, s2) →
  to_uint64 st_size > w_size_max w →
  ∃ s' rc, MapFile w filename filesize s = (nullptr, filesize, s')
        ∧ events_since s s' =
            [EvOpen filename (Some fd); EvFstat fd (Some st_size);
             EvThrowNew SizeCheck ("File too large: " ++ filename);
             EvClose fd rc]
        ∧ raised_in (events_since s s') = [SizeCheck]
        ∧ mmaps (events_since s s') = []
        ∧ (fd ∉ st_fds s') ∧ st_fds s' = st_fds s ∧ st_mem s' = st_mem s.
Proof.
  unfold MapFile. intros Ho Hs Hsz. step Ho. step Hs.
  rewrite decide_True by done.
  apply sys_fstat_inv in Hs as ->. apply sys_open_Some in Ho as [-> ->].
  unfold sys_close. run_throws. do 2 eexists; split; [reflexivity|]. simpl.
  erewrite events_since_app by done.
  split_and!; try done.
  - set_solver.
  - apply fresh_fd_released.
Qed.

End MapFile_paths.

(** ** GeneratePatch *)



(** GeneratePatch calls the encoder once, with minimum match length 16, on
    the bytes of the two buffers.  On a non-zero return code it raises
    AlgorithmFailure and returns null without touching the Java heap.
    Otherwise it raises nothing; when the size of the patch converted to
    jsize is negative it returns null, and when it is not it returns a new
    Java array that holds that many bytes from the start of the patch. *)
Lemma GeneratePatch_spec w old_buf old_size new_buf new_size s r s' :
  GeneratePatch w old_buf old_size new_buf new_size s = (r, s') →
  let old_bytes := read_buf old_buf old_size s in
  let new_bytes := read_buf new_buf new_size s in
  let rc := (w_bsdiff w old_bytes new_bytes 16).1 in
  let patch := (w_bsdiff w old_bytes new_bytes 16).2 in
  st_fds s' = st_fds s ∧ st_mem s' = st_mem s ∧ st_utf s' = st_utf s
  ∧ st_trace s' = st_trace s ++ EvBsdiff old_bytes new_bytes 16 rc :: failure_events rc
  ∧ if decide (rc ≠ 0) then r = None ∧ st_jheap s' = st_jheap s
    else if decide (to_jsize (Z.of_nat (length patch)) < 0) then
      r = None ∧ st_jheap s' = st_jheap s
    else
      ∃ result, r = Some result ∧ st_jheap s !! result = None
        ∧ st_jheap s' =
            <[result := take (Z.to_nat (to_jsize (Z.of_nat (length patch)))) patch]>
              (st_jheap s).
Proof.
  unfold GeneratePatch, bsdiff, failure_events.
  unfold mbind at 1. unfold M_bind at 1.
  destruct (w_bsdiff w _ _ 16) as [rc patch] eqn:E. simpl.
  destruct (decide (rc ≠ 0)) as [Hrc|Hrc].
  - run_throws. by intros [= <- <-].
  - unfold NewByteArray, SetByteArrayRegion. unfold mbind, M_bind, mret, M_ret.
    generalize (to_jsize (Z.of_nat (length patch))). intros n.
    destruct (decide (n < 0)) as [Hn|Hn]; cbn.
    + by intros [= <- <-].
    + rewrite lookup_insert_eq, length_replicate, Z2Nat.id by lia.
      rewrite decide_True by lia. intros [= <- <-]. cbn.
      split_and!; try done. eexists; split_and!; try done.
      * apply not_elem_of_dom, is_fresh.
      * rewrite insert_insert_eq. f_equal.
        rewrite Z.add_0_l, drop_replicate, Nat.sub_diag. cbn.
        by rewrite app_nil_r.
Qed.

(** ** nativeGeneratePatchFile *)

Lemma GetStringUTFChars_Some js s chars sa :
  GetStringUTFChars js s = (Some chars, sa) →
  js = Some chars
  ∧ sa = mkState (st_fds s) (st_mem s) (S (st_utf s)) (st_jheap s) (st_trace s).
Proof. unfold GetStringUTFChars. case_match; naive_solver. Qed.

Lemma sys_munmap_mapped p len c s :
  st_mem s !! p = Some (MappedFile len c) →
  sys_munmap p len s
  = (tt, mkState (st_fds s) (delete p (st_mem s)) (st_utf s) (st_jheap s)
                 (st_trace s ++ [EvMunmap p len])).
Proof. unfold sys_munmap. intros ->. by rewrite decide_True. Qed.

Lemma release_both (m : gmap positive Region) p1 r1 p2 r2 :
  m !! p1 = None → <[p1 := r1]> m !! p2 = None →
  delete p2 (delete p1 (<[p2 := r2]> (<[p1 := r1]> m))) = m.
Proof.
  intros H1 H2. assert (p1 ≠ p2) by (intros ->; by rewrite lookup_insert_eq in H2).
  rewrite lookup_insert_ne in H2 by done.
  apply map_eq. intros i.
  destruct (decide (i = p2)) as [->|]; [by rewrite lookup_delete_eq|].
  rewrite lookup_delete_ne by done.
  destruct (decide (i = p1)) as [->|]; [by rewrite lookup_delete_eq|].
  by rewrite lookup_delete_ne, !lookup_insert_ne.
Qed.

Section fromFiles.
Context (w : World) (s : State) (old_filename new_filename : jstring).
Context (old_file new_file : string) (sa sb : State).
Hypothesis Hold : GetStringUTFChars old_filename s = (Some old_file, sa).
Hypothesis Hnew : GetStringUTFChars new_filename sa = (Some new_file, sb).

(** With both paths retrieved and at least one acquisition failed, the run
    is: the first acquisition, the second acquisition, then a munmap of
    each region that was acquired; null is returned. *)
Lemma fromFiles_failure_run r1 s1 r2 s2 :
  MapFile w old_file (w_uninit w) sb = (r1, s1) →
  MapFile w new_file (w_uninit w) s1 = (r2, s2) →
  r1.1 = None ∨ r2.1 = None →
  ∃ s', nativeGeneratePatchFile w old_filename new_filename s = (null_array, s')
    ∧ events_since s s' =
        events_since sb s1 ++ events_since s1 s2
        ++ (unmap_event <$> released r1 ++ released r2)
    ∧ st_fds s' = st_fds s2
    ∧ st_mem s' = foldr (λ x, delete x.1) (st_mem s2) (released r1 ++ released r2)
    ∧ st_utf s' = st_utf s ∧ st_jheap s' = st_jheap s.
Proof.
  intros H1 H2 Hfail. unfold nativeGeneratePatchFile.
  step Hold. step Hnew. step H1. destruct r1 as [b1 n1]. step H2.
  destruct r2 as [b2 n2].
  destruct (MapFile_spec _ _ _ _ _ _ H1)
    as (evs1 & Ht1 & _ & _ & _ & Hu1 & Hj1 & Hsub1 & Hr1).
  destruct (MapFile_spec _ _ _ _ _ _ H2)
    as (evs2 & Ht2 & _ & _ & _ & Hu2 & Hj2 & Hsub2 & Hr2).
  rewrite (events_since_app _ _ _ Ht1), (events_since_app _ _ _ Ht2).
  apply GetStringUTFChars_Some in Hnew as [-> ->].
  apply GetStringUTFChars_Some in Hold as [-> ->]. simpl in *.
  unfold ReleaseStringUTFChars, released.
  destruct b1 as [p1|], b2 as [p2|]; [by destruct Hfail| | |];
    unfold skip, mbind, M_bind, mret, M_ret; cbn.
  - destruct Hr1 as (_ & _ & [c Hm1] & _).
    erewrite sys_munmap_mapped
      by (simpl; eapply lookup_weaken; [|done]; rewrite Hm1; apply lookup_insert_eq).
    eexists; split; [reflexivity|]. simpl. split_and!; try congruence.
    + apply events_since_app. simpl. rewrite Ht2, Ht1. by rewrite <- !app_assoc.
    + by rewrite Hu2, Hu1.
  - destruct Hr2 as (_ & _ & [c Hm2] & _).
    erewrite sys_munmap_mapped by (simpl; rewrite Hm2; apply lookup_insert_eq).
    eexists; split; [reflexivity|]. simpl. split_and!; try congruence.
    + apply events_since_app. simpl. rewrite Ht2, Ht1. by rewrite <- !app_assoc.
    + by rewrite Hu2, Hu1.
  - eexists; split; [reflexivity|]. simpl. split_and!; try congruence.
    + apply events_since_app. simpl. rewrite Ht2, Ht1.
      by rewrite <- !app_assoc, app_nil_r.
    + by rewrite Hu2, Hu1.
Qed.

(** With both paths retrieved and both acquisitions successful, the run
    is: the two acquisitions, one call of the encoder on the two mappings
    (and the AlgorithmFailure error when it fails), then the munmap of
    both; descriptors, memory and string pins are as before the call. *)
Lemma fromFiles_success_run p1 n1 s1 p2 n2 s2 :
  MapFile w old_file (w_uninit w) sb = (Some p1, n1, s1) →
  MapFile w new_file (w_uninit w) s1 = (Some p2, n2, s2) →
  let old_bytes := read_buf p1 n1 s2 in
  let new_bytes := read_buf p2 n2 s2 in
  let rc := (w_bsdiff w old_bytes new_bytes 16).1 in
  ∃ r s', nativeGeneratePatchFile w old_filename new_filename s = (r, s')
    ∧ events_since s s' =
        events_since sb s1 ++ events_since s1 s2
        ++ EvBsdiff old_bytes new_bytes 16 rc :: failure_events rc
        ++ [EvMunmap p1 n1; EvMunmap p2 n2]
    ∧ (rc ≠ 0 → r = None)
    ∧ p1 ≠ p2 ∧ st_mem s !! p1 = None ∧ st_mem s !! p2 = None
    ∧ st_fds s' = st_fds s ∧ st_mem s' = st_mem s ∧ st_utf s' = st_utf s.
Proof.
  intros H1 H2. unfold nativeGeneratePatchFile.
  step Hold. step Hnew. step H1. step H2.
  destruct (MapFile_spec _ _ _ _ _ _ H1)
    as (evs1 & Ht1 & _ & _ & _ & Hu1 & Hj1 & Hsub1 & Hf1 & Hp1 & [c1 Hm1] & _).
  destruct (MapFile_spec _ _ _ _ _ _ H2)
    as (evs2 & Ht2 & _ & _ & _ & Hu2 & Hj2 & Hsub2 & Hf2 & Hp2 & [c2 Hm2] & _).
  rewrite (events_since_app _ _ _ Ht1), (events_since_app _ _ _ Ht2).
  apply GetStringUTFChars_Some in Hnew as [-> ->].
  apply GetStringUTFChars_Some in Hold as [-> ->]. simpl in *.
  assert (p1 ≠ p2) as Hne
    by (intros ->; by rewrite Hm1, lookup_insert_eq in Hp2).
  unfold ReleaseStringUTFChars. unfold mbind, M_bind, mret, M_ret. cbn.
  match goal with |- context [GeneratePatch w p1 n1 p2 n2 ?st] =>
    destruct (GeneratePatch w p1 n1 p2 n2 st) as [r sg] eqn:HG end.
  apply GeneratePatch_spec in HG as (Hgf & Hgm & Hgu & Hgt & Hg). cbn in *.
  change (read_buf p1 n1 _) with (read_buf p1 n1 s2) in Hg, Hgt.
  change (read_buf p2 n2 _) with (read_buf p2 n2 s2) in Hg, Hgt.
  assert (st_mem sg !! p1 = Some (MappedFile n1 c1)) as Hl1.
  { rewrite Hgm, Hm2, lookup_insert_ne, Hm1 by done. apply lookup_insert_eq. }
  assert (delete p1 (st_mem sg) !! p2 = Some (MappedFile n2 c2)) as Hl2.
  { rewrite lookup_delete_ne, Hgm, Hm2 by done. apply lookup_insert_eq. }
  rewrite (sys_munmap_mapped _ _ _ _ Hl1).
  erewrite sys_munmap_mapped by exact Hl2.
  cbn. do 2 eexists; split; [reflexivity|]. cbn.
  assert (st_mem s !! p2 = None) by (by rewrite Hm1, lookup_insert_ne in Hp2).
  split_and!; try done.
  - apply events_since_app. rewrite Hgt, Ht2, Ht1. cbn [st_trace].
    by rewrite <- !app_assoc, <- app_comm_cons, <- ?app_assoc.
  - intros Hrc. rewrite decide_True in Hg by done. by destruct Hg as (-> & _).
  - congruence.
  - rewrite Hgm, Hm2, Hm1. by apply release_both; [|rewrite <- Hm1].
  - by rewrite Hgu, Hu2, Hu1.
Qed.

(** C4.  When both files were mapped, the last two things the call does
    before it returns are the munmap of the old mapping and the munmap of
    the new mapping, whatever the encoder returned; neither region exists
    afterwards, and memory and descriptors are as before the call. *)
Theorem fromFiles_releases_both_mappings old_buf old_size s1 new_buf new_size s2 :
  MapFile w old_file (w_uninit w) sb = (Some old_buf, old_size, s1) →
  MapFile w new_file (w_uninit w) s1 = (Some new_buf, new_size, s2) →
  ∃ r s' evs, nativeGeneratePatchFile w old_filename new_filename s = (r, s')
    ∧ events_since s s' =
        evs ++ [EvMunmap old_buf old_size; EvMunmap new_buf new_size]
    ∧ munmaps evs = []
    ∧ st_mem s' !! old_buf = None ∧ st_mem s' !! new_buf = None
    ∧ st_mem s' = st_mem s ∧ st_fds s' = st_fds s.
Proof.
  intros H1 H2.
  destruct (fromFiles_success_run _ _ _ _ _ _ H1 H2)
    as (r & s' & Hrun & Hev & _ & _ & Hp1 & Hp2 & Hf & Hm & _).
  destruct (MapFile_spec _ _ _ _ _ _ H1) as (evs1 & Ht1 & _ & Hu1 & _).
  destruct (MapFile_spec _ _ _ _ _ _ H2) as (evs2 & Ht2 & _ & Hu2 & _).
  rewrite (events_since_app _ _ _ Ht1), (events_since_app _ _ _ Ht2) in Hev.
  exists r, s'. eexists. split; [done|]. split.
  { rewrite Hev. rewrite !app_comm_cons, !app_assoc. reflexivity. }
  split_and!; try congruence.
  unfold munmaps, failure_events in *. rewrite !omap_app, Hu1, Hu2. simpl.
  by case_decide.
Qed.

(** C8.  With both paths retrieved, open is called on the old path and
    then on the new path whatever happened to the first acquisition: an
    error of the first is raised and the run goes on with the second.  When
    an acquisition failed, the call returns null after both, and munmap is
    called on exactly the regions the acquisitions returned, which no
    longer exist afterwards. *)
Theorem fromFiles_evaluates_both_acquisitions r1 s1 r2 s2 :
  MapFile w old_file (w_uninit w) sb = (r1, s1) →
  MapFile w new_file (w_uninit w) s1 = (r2, s2) →
  ∃ r s' rest, nativeGeneratePatchFile w old_filename new_filename s = (r, s')
    ∧ events_since s s' = events_since sb s1 ++ events_since s1 s2 ++ rest
    ∧ opens (events_since sb s1) = [old_file]
    ∧ opens (events_since s1 s2) = [new_file]
    ∧ opens rest = []
    ∧ (r1.1 = None → raised_in (events_since sb s1) ≠ [])
    ∧ (r1.1 = None ∨ r2.1 = None →
         r = null_array
         ∧ rest = (unmap_event <$> released r1 ++ released r2)
         ∧ ∀ x, x ∈ released r1 ++ released r2 → st_mem s' !! x.1 = None).
Proof.
  intros H1 H2.
  destruct (MapFile_spec _ _ _ _ _ _ H1) as (evs1 & Ht1 & Ho1 & _ & _ & _ & _ & _ & Hr1).
  destruct (MapFile_spec _ _ _ _ _ _ H2) as (evs2 & Ht2 & Ho2 & _ & _ & _ & _ & _ & Hr2).
  destruct (decide (r1.1 = None ∨ r2.1 = None)) as [Hfail|Hok].
  - destruct (fromFiles_failure_run _ _ _ _ H1 H2 Hfail)
      as (s' & Hrun & Hev & _ & Hm & _).
    exists null_array, s'. eexists. split; [done|]. split; [done|].
    rewrite (events_since_app _ _ _ Ht1), (events_since_app _ _ _ Ht2).
    split_and!; try done.
    + unfold released. by repeat case_match.
    + intros Hn. by rewrite Hn in Hr1.
    + intros _. split_and!; try done. intros x Hx. rewrite Hm.
      unfold released in *.
      destruct r1 as [[p1|] n1], r2 as [[p2|] n2]; simpl in *;
        [by destruct Hfail|..]; decompose_list_elem_of; simplify_eq/=;
        apply lookup_delete_eq.
  - destruct r1 as [[p1|] n1], r2 as [[p2|] n2]; try (exfalso; apply Hok; simpl; by eauto).
    destruct (fromFiles_success_run _ _ _ _ _ _ H1 H2) as (r & s' & Hrun & Hev & _).
    exists r, s'. eexists. split; [done|]. split; [done|].
    rewrite (events_since_app _ _ _ Ht1), (events_since_app _ _ _ Ht2).
    split_and!; try done.
    unfold failure_events. by case_decide.
Qed.

(** X16.  When exactly one acquisition failed, munmap is called once, on the
    region the other one returned, which no longer exists afterwards; the
    errors raised during the call are those of the acquisition that
    failed. *)
Lemma fromFiles_one_failure_releases_survivor r1 s1 r2 s2 p n :
  MapFile w old_file (w_uninit w) sb = (r1, s1) →
  MapFile w new_file (w_uninit w) s1 = (r2, s2) →
  (r1 = (Some p, n) ∧ r2.1 = None) ∨ (r1.1 = None ∧ r2 = (Some p, n)) →
  ∃ s', nativeGeneratePatchFile w old_filename new_filename s = (null_array, s')
    ∧ munmaps (events_since s s') = [(p, n)]
    ∧ st_mem s' !! p = None
    ∧ raised_in (events_since s s')
      = raised_in (events_since sb s1) ++ raised_in (events_since s1 s2)
    ∧ (raised_in (events_since sb s1) = [] ∨ raised_in (events_since s1 s2) = [])
    ∧ raised_in (events_since s s') ≠ [].
Proof.
  intros H1 H2 Hone.
  assert (r1.1 = None ∨ r2.1 = None) as Hfail by naive_solver.
  destruct (fromFiles_failure_run _ _ _ _ H1 H2 Hfail) as (s' & Hrun & Hev & _ & Hm & _).
  destruct (MapFile_spec _ _ _ _ _ _ H1) as (evs1 & Ht1 & _ & Hu1 & _ & _ & _ & _ & Hr1).
  destruct (MapFile_spec _ _ _ _ _ _ H2) as (evs2 & Ht2 & _ & Hu2 & _ & _ & _ & _ & Hr2).
  rewrite (events_since_app _ _ _ Ht1), (events_since_app _ _ _ Ht2) in *.
  exists s'. split; [done|]. rewrite Hev, Hm.
  unfold munmaps, raised_in, released in *. rewrite !omap_app, Hu1, Hu2.
  destruct Hone as [[-> Hn]|[Hn ->]]; rewrite Hn in *; simpl in *.
  - destruct Hr1 as (_ & _ & _ & ->). rewrite lookup_delete_eq. simpl.
    rewrite !app_nil_r. split_and!; eauto.
  - destruct Hr2 as (_ & _ & _ & ->). rewrite lookup_delete_eq. simpl.
    rewrite !app_nil_r. split_and!; eauto.
Qed.

(** X17.  A failed call holds what its failed acquisitions hold, and no more:
    when each acquisition that failed left descriptors and memory as it
    found them, so does the call. *)
Lemma fromFiles_failure_holds_what_acquisitions_left r1 s1 r2 s2 :
  MapFile w old_file (w_uninit w) sb = (r1, s1) →
  MapFile w new_file (w_uninit w) s1 = (r2, s2) →
  r1.1 = None ∨ r2.1 = None →
  (r1.1 = None → st_fds s1 = st_fds sb ∧ st_mem s1 = st_mem sb) →
  (r2.1 = None → st_fds s2 = st_fds s1 ∧ st_mem s2 = st_mem s1) →
  ∃ s', nativeGeneratePatchFile w old_filename new_filename s = (null_array, s')
    ∧ st_fds s' = st_fds s ∧ st_mem s' = st_mem s
    ∧ open_resources s' = open_resources s.
Proof.
  intros H1 H2 Hfail Hc1 Hc2.
  destruct (fromFiles_failure_run _ _ _ _ H1 H2 Hfail) as (s' & Hrun & _ & Hf & Hm & _).
  destruct (MapFile_spec _ _ _ _ _ _ H1) as (evs1 & _ & _ & _ & _ & _ & _ & _ & Hr1).
  destruct (MapFile_spec _ _ _ _ _ _ H2) as (evs2 & _ & _ & _ & _ & _ & _ & _ & Hr2).
  apply GetStringUTFChars_Some in Hnew as [_ Hsb].
  apply GetStringUTFChars_Some in Hold as [_ Hsa].
  assert (st_fds sb = st_fds s ∧ st_mem sb = st_mem s) as [Hfs Hms]
    by (by rewrite Hsb, Hsa).
  exists s'. split; [done|]. unfold open_resources. rewrite Hf, Hm. unfold released.
  destruct r1 as [[p1|] n1], r2 as [[p2|] n2]; simpl in *; [by destruct Hfail|..].
  - destruct Hr1 as (Hf1 & Hp1 & [c Hm1] & _).
    destruct Hc2 as [Hf2 Hm2]; [done|].
    rewrite Hf2, Hm2, Hm1, Hf1, delete_insert_eq, delete_id by done.
    by rewrite Hfs, Hms.
  - destruct Hr2 as (Hf2 & Hp2 & [c Hm2] & _).
    destruct Hc1 as [Hf1 Hm1]; [done|].
    rewrite Hf2, Hm2, delete_insert_eq, delete_id by done.
    by rewrite Hf1, Hm1, Hfs, Hms.
  - destruct Hc1 as [Hf1 Hm1]; [done|]. destruct Hc2 as [Hf2 Hm2]; [done|].
    by rewrite Hf2, Hm2, Hf1, Hm1, Hfs, Hms.
Qed.

End fromFiles.


(** On that path the characters already obtained for the other argument
    are not handed back: ReleaseStringUTFChars is only reached once both
    were retrieved. *)
Lemma fromFiles_argument_missing_keeps_string_chars w s old_file :
  st_utf (nativeGeneratePatchFile w (Some old_file) None s).2 = S (st_utf s).
Proof. reflexivity. Qed.

(** ** nativeGeneratePatchData *)

(** Copying a whole array into an owned buffer of the same length
    replaces the buffer's contents with the array's. *)
Lemma GetByteArrayRegion_whole arr buf c s :
  st_mem s !! buf = Some (OwnedCopy c) →
  length c = length (array_bytes s arr) →
  GetByteArrayRegion arr 0 (Z.of_nat (length (array_bytes s arr))) buf s
  = (tt, mkState (st_fds s) (<[buf := OwnedCopy (array_bytes s arr)]> (st_mem s))
                 (st_utf s) (st_jheap s) (st_trace s)).
Proof.
  intros Hb Hlen. unfold GetByteArrayRegion. rewrite Hb, Nat2Z.id.
  fold (array_bytes s arr). simpl.
  by rewrite firstn_all, <- Hlen, drop_all, app_nil_r.
Qed.

Lemma read_buf_whole p c s :
  st_mem s !! p = Some (OwnedCopy c) →
  read_buf p (Z.of_nat (length c)) s = c.
Proof. unfold read_buf. intros ->. simpl. by rewrite Nat2Z.id, firstn_all. Qed.

Ltac step_refl := erewrite run_bind by reflexivity; cbv beta.

(** The run of nativeGeneratePatchData: two new buffers of the lengths of
    the two arrays, one call of the encoder on the copies (and the
    AlgorithmFailure error when it fails), then the release of the two
    buffers.  Descriptors, memory and string pins are as before the call;
    the Java heap gains the patch array when the encoder succeeds and is
    as before the call when it fails. *)
Lemma fromBuffers_run w s old_data new_data :
  let old_bytes := array_bytes s old_data in
  let new_bytes := array_bytes s new_data in
  let rc := (w_bsdiff w old_bytes new_bytes 16).1 in
  let patch := (w_bsdiff w old_bytes new_bytes 16).2 in
  ∃ r s' old_buf new_buf,
    nativeGeneratePatchData w old_data new_data s = (r, s')
    ∧ events_since s s' =
        [EvNew old_buf (Z.of_nat (length old_bytes));
         EvNew new_buf (Z.of_nat (length new_bytes));
         EvBsdiff old_bytes new_bytes 16 rc]
        ++ failure_events rc ++ [EvDelete new_buf; EvDelete old_buf]
    ∧ st_trace s' = st_trace s ++ events_since s s'
    ∧ st_mem s !! old_buf = None ∧ st_mem s !! new_buf = None
    ∧ old_buf ≠ new_buf
    ∧ st_fds s' = st_fds s ∧ st_mem s' = st_mem s ∧ st_utf s' = st_utf s
    ∧ if decide (rc ≠ 0) then r = None ∧ st_jheap s' = st_jheap s
      else if decide (to_jsize (Z.of_nat (length patch)) < 0) then
        r = None ∧ st_jheap s' = st_jheap s
      else
        ∃ result, r = Some result ∧ st_jheap s !! result = None
          ∧ st_jheap s' =
              <[result := take (Z.to_nat (to_jsize (Z.of_nat (length patch)))) patch]>
                (st_jheap s).
Proof.
  intros old_bytes new_bytes rc patch. unfold nativeGeneratePatchData.
  do 4 step_refl. fold (array_bytes s old_data) (array_bytes s new_data).
  fold old_bytes new_bytes.
  set (p1 := fresh (dom (st_mem s))).
  set (z1 := replicate (Z.to_nat (Z.of_nat (length old_bytes))) x00).
  set (m1 := <[p1 := OwnedCopy z1]> (st_mem s)).
  cbn [st_fds st_mem st_utf st_jheap st_trace]. fold m1.
  set (p2 := fresh (dom m1)).
  set (z2 := replicate (Z.to_nat (Z.of_nat (length new_bytes))) x00).
  assert (st_mem s !! p1 = None) as Hp1 by apply fresh_region_free.
  assert (m1 !! p2 = None) as Hp2 by apply fresh_region_free.
  assert (p1 ≠ p2) as Hne
    by (intros E; rewrite <- E in Hp2; unfold m1 in Hp2;
        by rewrite lookup_insert_eq in Hp2).
  assert (st_mem s !! p2 = None) as Hp2'
    by (unfold m1 in Hp2; by rewrite lookup_insert_ne in Hp2).
  match goal with |- context [(GetByteArrayRegion old_data _ _ p1 ≫= _) ?st] =>
    opose proof* (GetByteArrayRegion_whole old_data p1 z1 st) as Hc1 end.
  { cbn. unfold m1. by rewrite lookup_insert_ne, lookup_insert_eq. }
  { unfold z1. by rewrite length_replicate, Nat2Z.id. }
  step Hc1. clear Hc1.
  match goal with |- context [(GetByteArrayRegion new_data _ _ p2 ≫= _) ?st] =>
    opose proof* (GetByteArrayRegion_whole new_data p2 z2 st) as Hc2 end.
  { cbn. by rewrite lookup_insert_ne, lookup_insert_eq. }
  { unfold z2. by rewrite length_replicate, Nat2Z.id. }
  step Hc2. clear Hc2.
  change (array_bytes _ old_data) with old_bytes.
  change (array_bytes _ new_data) with new_bytes.
  set (m4 := <[p2 := OwnedCopy new_bytes]> _).
  match goal with |- context [(GeneratePatch w p1 _ p2 _ ≫= _) ?st] =>
    set (s4 := st);
    destruct (GeneratePatch w p1 (Z.of_nat (length old_bytes))
                p2 (Z.of_nat (length new_bytes)) s4) as [r sg] eqn:HG end.
  step HG.
  apply GeneratePatch_spec in HG as (Hgf & Hgm & Hgu & Hgt & Hg).
  rewrite (read_buf_whole p1 old_bytes), (read_buf_whole p2 new_bytes) in Hg, Hgt;
    [|by (cbn; unfold m4; rewrite ?lookup_insert_eq;
          rewrite ?lookup_insert_ne, ?lookup_insert_eq by done)..].
  fold rc patch in Hg, Hgt. cbn in Hgf, Hgm, Hgu, Hg, Hgt.
  unfold unique_ptr_delete. run_throws.
  exists r. eexists. exists p1, p2. split; [reflexivity|]. cbn.
  assert (delete p1 (delete p2 (st_mem sg)) = st_mem s) as Hmem.
  { rewrite Hgm. apply map_eq. intros i.
    destruct (decide (i = p1)) as [->|]; [by rewrite lookup_delete_eq|].
    rewrite lookup_delete_ne by done.
    destruct (decide (i = p2)) as [->|]; [by rewrite lookup_delete_eq|].
    rewrite lookup_delete_ne by done. unfold m4, m1.
    by rewrite !lookup_insert_ne. }
  assert (st_trace sg ++ [EvDelete p2; EvDelete p1] =
          st_trace s ++
          [EvNew p1 (Z.of_nat (length old_bytes));
           EvNew p2 (Z.of_nat (length new_bytes));
           EvBsdiff old_bytes new_bytes 16 rc]
          ++ failure_events rc ++ [EvDelete p2; EvDelete p1]) as Htr.
  { rewrite Hgt. by rewrite <- !app_assoc. }
  erewrite events_since_app by exact Htr.
  split_and!; try done.
Qed.

(** C6.  Whenever both buffers are available (both files mapped, or the
    two arrays copied, which always happens), the call invokes the encoder
    exactly once, with minimum match length 16. *)
Theorem encoder_invoked_once_with_min_length_16 w s :
  (∀ old_filename new_filename old_file new_file sa sb
     old_buf old_size s1 new_buf new_size s2,
     GetStringUTFChars old_filename s = (Some old_file, sa) →
     GetStringUTFChars new_filename sa = (Some new_file, sb) →
     MapFile w old_file (w_uninit w) sb = (Some old_buf, old_size, s1) →
     MapFile w new_file (w_uninit w) s1 = (Some new_buf, new_size, s2) →
     ∃ r s', nativeGeneratePatchFile w old_filename new_filename s = (r, s')
       ∧ encoder_calls (events_since s s') = [16])
  ∧ (∀ old_data new_data,
     ∃ r s', nativeGeneratePatchData w old_data new_data s = (r, s')
       ∧ encoder_calls (events_since s s') = [16]).
Proof.
  split.
  - intros * Hold Hnew H1 H2.
    destruct (fromFiles_success_run _ _ _ _ _ _ _ _ Hold Hnew _ _ _ _ _ _ H1 H2)
      as (r & s' & Hrun & Hev & _).
    destruct (MapFile_spec _ _ _ _ _ _ H1) as (evs1 & Ht1 & _ & _ & He1 & _).
    destruct (MapFile_spec _ _ _ _ _ _ H2) as (evs2 & Ht2 & _ & _ & He2 & _).
    rewrite (events_since_app _ _ _ Ht1), (events_since_app _ _ _ Ht2) in Hev.
    exists r, s'. split; [done|]. rewrite Hev.
    unfold encoder_calls, failure_events in *. rewrite !omap_app, He1, He2.
    simpl. by case_decide.
  - intros old_data new_data.
    destruct (fromBuffers_run w s old_data new_data)
      as (r & s' & p1 & p2 & Hrun & Hev & _).
    exists r, s'. split; [done|]. rewrite Hev.
    unfold encoder_calls, failure_events. simpl. by case_decide.
Qed.

(** C7 (as the code has it).  nativeGeneratePatchData can fail although
    the encoder succeeded: GeneratePatch hands patch.size(), a size_t, to
    the jsize parameter of NewByteArray and does not test the array it gets
    back.  Whenever the encoder returns 0 and the length of its patch is
    negative as a jsize, the call returns null, no error is raised and no
    Java array is created. *)
Theorem fromBuffers_null_without_encoder_failure w s old_data new_data :
  (w_bsdiff w (array_bytes s old_data) (array_bytes s new_data) 16).1 = 0 →
  to_jsize (Z.of_nat (length
    (w_bsdiff w (array_bytes s old_data) (array_bytes s new_data) 16).2)) < 0 →
  ∃ s', nativeGeneratePatchData w old_data new_data s = (null_array, s')
    ∧ encoder_calls (events_since s s') = [16]
    ∧ raised_in (events_since s s') = []
    ∧ st_jheap s' = st_jheap s.
Proof.
  intros Hrc Hneg.
  destruct (fromBuffers_run w s old_data new_data)
    as (r & s' & p1 & p2 & Hrun & Hev & Htr & _ & _ & _ & _ & _ & _ & Hres).
  cbv zeta in Hev, Hres. rewrite Hrc in Hev, Hres.
  rewrite decide_False in Hres by (intros ?; done).
  rewrite decide_True in Hres by done.
  destruct Hres as [-> Hj]. exists s'. rewrite Hev. by split_and!.
Qed.

(** C10.  nativeGeneratePatchData allocates one new buffer per input, each
    of exactly the length of its array, before it calls the encoder; the
    encoder is given the copies, which hold the bytes of the arrays; and
    both input arrays, like every array that existed before the call, hold
    the same bytes after it. *)
Theorem fromBuffers_leaves_inputs_unchanged w s old_data new_data old_bytes new_bytes :
  st_jheap s !! old_data = Some old_bytes →
  st_jheap s !! new_data = Some new_bytes →
  ∃ r s' old_buf new_buf rc rest,
    nativeGeneratePatchData w old_data new_data s = (r, s')
    ∧ events_since s s' =
        EvNew old_buf (Z.of_nat (length old_bytes))
        :: EvNew new_buf (Z.of_nat (length new_bytes))
        :: EvBsdiff old_bytes new_bytes 16 rc :: rest
    ∧ st_mem s !! old_buf = None ∧ st_mem s !! new_buf = None
    ∧ old_buf ≠ new_buf
    ∧ st_jheap s' !! old_data = Some old_bytes
    ∧ st_jheap s' !! new_data = Some new_bytes
    ∧ st_jheap s ⊆ st_jheap s'.
Proof.
  intros Ho Hn.
  destruct (fromBuffers_run w s old_data new_data)
    as (r & s' & p1 & p2 & Hrun & Hev & _ & Hp1 & Hp2 & Hne & _ & _ & _ & Hres).
  unfold array_bytes in *. rewrite Ho, Hn in *. simpl in *.
  assert (st_jheap s ⊆ st_jheap s') as Hsub.
  { repeat case_decide; [by destruct Hres as [_ ->]..|].
    destruct Hres as (result & _ & ? & ->). by apply insert_subseteq. }
  exists r, s', p1, p2. do 2 eexists. split; [done|]. split; [exact Hev|].
  split_and!; try done; by eapply lookup_weaken.
Qed.

(** * Concrete runs *)

Lemma storing_patch_length header o n :
  0 ≤ header →
  Z.of_nat (length (w_bsdiff (world64_storing header) o n 16).2)
  = header + Z.of_nat (length n).
Proof.
  intros Hh.
  change (w_bsdiff (world64_storing header) o n 16).2
    with (replicate (Z.to_nat header) x00 ++ n).
  rewrite length_app, length_replicate, Nat2Z.inj_add, Z2Nat.id by done. done.
Qed.

Lemma large_array_length :
  Z.of_nat (length (array_bytes large_array 2)) = 2 ^ 31 - 16.
Proof.
  unfold array_bytes, large_array. cbn [st_jheap].
  rewrite lookup_insert_eq. cbn [default from_option id].
  rewrite length_replicate, Z2Nat.id by lia. done.
Qed.

Lemma fromBuffers_null_without_encoder_failure_witness :
  ∃ s', nativeGeneratePatchData (world64_storing 48) 1 2 large_array = (null_array, s')
        ∧ raised_in (events_since large_array s') = [].
Proof.
  destruct (fromBuffers_null_without_encoder_failure (world64_storing 48) large_array 1 2)
    as (s' & Hrun & _ & Hr & _); [reflexivity | |].
  - rewrite storing_patch_length, large_array_length by lia. reflexivity.
  - exists s'. exact (conj Hrun Hr).
Defined.

Lemma MapFile_stat_failure_keeps_descriptor_witness :
  ∃ s', MapFile world64 "nostat" 0 initial = (nullptr, 0, s')
        ∧ raised_in (events_since initial s') = [Stat]
        ∧ closes (events_since initial s') = []
        ∧ 0%nat ∈ st_fds s'.
Proof.
  destruct (MapFile_stat_failure_keeps_descriptor world64 initial "nostat" 0 0%nat
              (sys_open world64 "nostat" initial).2
              (sys_fstat world64 0%nat (sys_open world64 "nostat" initial).2).2)
    as (s' & Hrun & _ & Hp & Hc & _ & Hin); [vm_compute; reflexivity..|].
  exists s'. done.
Defined.

Lemma MapFile_map_and_close_failure_witness :
  ∃ s', MapFile world64 "nomap" 0 initial = (nullptr, 8, s')
        ∧ raised_in (events_since initial s') = [Close; Map].
Proof.
  set (s1 := (sys_open world64 "nomap" initial).2).
  set (s2 := (sys_fstat world64 0%nat s1).2).
  set (s3 := (sys_mmap world64 8 0%nat s2).2).
  set (s4 := (sys_close world64 0%nat s3).2).
  destruct (MapFile_map_and_close_failure world64 initial "nomap" 0
              0%nat s1 8 s2 s3 (-1) s4)
    as (s' & Hrun & _ & Hr);
    [vm_compute; reflexivity | vm_compute; reflexivity
    | intros H; vm_compute in H; discriminate
    | vm_compute; reflexivity | vm_compute; reflexivity | done |].
  exists s'. exact (conj Hrun Hr).
Defined.

Lemma MapFile_size_check_witness :
  ∃ s', MapFile world32 "huge" 0 initial = (nullptr, 0, s')
        ∧ raised_in (events_since initial s') = [SizeCheck]
        ∧ mmaps (events_since initial s') = []
        ∧ st_fds s' = ∅ ∧ st_mem s' = ∅.
Proof.
  set (s1 := (sys_open world32 "huge" initial).2).
  set (s2 := (sys_fstat world32 0%nat s1).2).
  destruct (MapFile_size_check world32 initial "huge" 0 0%nat s1 (2 ^ 32) s2)
    as (s' & rc & Hrun & _ & Hp & Hm & _ & Hf & Hmem);
    [vm_compute; reflexivity | vm_compute; reflexivity | vm_compute; reflexivity |].
  exists s'. done.
Defined.

Lemma fromFiles_releases_both_mappings_witness :
  ∃ r s' evs,
    nativeGeneratePatchFile world64_failing (Some "old"%string) (Some "new"%string)
      initial = (r, s')
    ∧ events_since initial s' = evs ++ [EvMunmap 1 3; EvMunmap 2 4]
    ∧ st_mem s' = ∅ ∧ st_fds s' = ∅.
Proof.
  set (w := world64_failing).
  set (sa := (GetStringUTFChars (Some "old"%string) initial).2).
  set (sb := (GetStringUTFChars (Some "new"%string) sa).2).
  set (s1 := (MapFile w "old" 0 sb).2).
  set (s2 := (MapFile w "new" 0 s1).2).
  destruct (fromFiles_releases_both_mappings w initial (Some "old"%string)
              (Some "new"%string) "old" "new" sa sb eq_refl eq_refl
              1%positive 3 s1 2%positive 4 s2)
    as (r & s' & evs & Hrun & Hev & _ & _ & _ & Hm & Hf);
    [vm_compute; reflexivity | vm_compute; reflexivity |].
  exists r, s', evs. exact (conj Hrun (conj Hev (conj Hm Hf))).
Defined.


Lemma encoder_invoked_once_with_min_length_16_witness :
  (∃ r s', nativeGeneratePatchFile world64 (Some "old"%string) (Some "new"%string)
             initial = (r, s')
           ∧ encoder_calls (events_since initial s') = [16])
  ∧ (∃ r s', nativeGeneratePatchData world64 1 2 two_arrays = (r, s')
           ∧ encoder_calls (events_since two_arrays s') = [16]).
Proof.
  split.
  - set (w := world64).
    set (sa := (GetStringUTFChars (Some "old"%string) initial).2).
    set (sb := (GetStringUTFChars (Some "new"%string) sa).2).
    set (s1 := (MapFile w "old" 0 sb).2).
    set (s2 := (MapFile w "new" 0 s1).2).
    apply (proj1 (encoder_invoked_once_with_min_length_16 w initial)
             (Some "old"%string) (Some "new"%string) "old"%string "new"%string
             sa sb 1%positive 3 s1 2%positive 4 s2);
      vm_compute; reflexivity.
  - apply (proj2 (encoder_invoked_once_with_min_length_16 world64 two_arrays)).
Defined.

Lemma fromFiles_evaluates_both_acquisitions_witness :
  ∃ s', nativeGeneratePatchFile world64 (Some "absent"%string) (Some "new"%string)
          initial = (null_array, s')
        ∧ opens (events_since initial s') = ["absent"%string; "new"%string]
        ∧ munmaps (events_since initial s') = [(1%positive, 4)]
        ∧ st_mem s' = ∅.
Proof.
  set (w := world64).
  set (sa := (GetStringUTFChars (Some "absent"%string) initial).2).
  set (sb := (GetStringUTFChars (Some "new"%string) sa).2).
  set (s1 := (MapFile w "absent" 0 sb).2).
  set (s2 := (MapFile w "new" 0 s1).2).
  destruct (fromFiles_evaluates_both_acquisitions w initial (Some "absent"%string)
              (Some "new"%string) "absent" "new" sa sb eq_refl eq_refl
              (nullptr, 0) s1 (Some 1%positive, 4) s2)
    as (r & s' & rest & Hrun & Hev & Ho1 & Ho2 & Ho3 & _ & Hfail);
    [vm_compute; reflexivity | vm_compute; reflexivity |].
  destruct Hfail as (-> & -> & Hgone); [by left|].
  exists s'. split; [exact Hrun|]. rewrite Hev.
  unfold opens, munmaps in *. rewrite !omap_app, Ho1, Ho2.
  split; [reflexivity|]. split; [vm_compute; reflexivity|].
  revert Hrun. vm_compute. intros [= <-]. reflexivity.
Defined.

Lemma fromBuffers_leaves_inputs_unchanged_witness :
  ∃ r s', nativeGeneratePatchData world64 1 2 two_arrays = (r, s')
        ∧ st_jheap s' !! 1%positive = Some [x41; x42; x43]
        ∧ st_jheap s' !! 2%positive = Some [x41; x58].
Proof.
  destruct (fromBuffers_leaves_inputs_unchanged world64 two_arrays 1 2
              [x41; x42; x43] [x41; x58])
    as (r & s' & p1 & p2 & rc & rest & Hrun & _ & _ & _ & _ & Ho & Hn & _);
    [vm_compute; reflexivity | vm_compute; reflexivity |].
  exists r, s'. exact (conj Hrun (conj Ho Hn)).
Defined.

(** C3 (as the code has it).  The old path is a file whose fstat fails and
    the new path a good file: the call returns null with the Stat error
    raised and has unmapped the new file, yet one descriptor, the one the
    failed acquisition opened, is still open. *)
Theorem fromFiles_stat_failure_leaks_descriptor :
  let run := nativeGeneratePatchFile world64 (Some "nostat"%string)
               (Some "new"%string) initial in
  run.1 = null_array
  ∧ raised run.2 = [Stat]
  ∧ munmaps (st_trace run.2) = [(1%positive, 4)]
  ∧ st_mem run.2 = ∅
  ∧ st_fds run.2 = {[0%nat]}
  ∧ open_resources run.2 = 1%nat.
Proof. vm_compute. repeat split; reflexivity. Qed.

(** The second way an acquisition failure leaves something behind: when
    close fails after a successful mmap, MapFile returns null, so the
    caller has no pointer to unmap and the mapping stays. *)
Lemma fromFiles_close_failure_leaks_mapping :
  let run := nativeGeneratePatchFile world64 (Some "noclose"%string)
               (Some "new"%string) initial in
  run.1 = null_array
  ∧ raised run.2 = [Close]
  ∧ munmaps (st_trace run.2) = [(2%positive, 4)]
  ∧ map_to_list (st_mem run.2) = [(1%positive, MappedFile 2 [x41; x42])]
  ∧ open_resources run.2 = 1%nat.
Proof. vm_compute. repeat split; reflexivity. Qed.

(** When the only failures are failures of open, nothing is left behind. *)
Lemma fromFiles_open_failure_holds_nothing :
  let run := nativeGeneratePatchFile world64 (Some "absent"%string)
               (Some "new"%string) initial in
  run.1 = null_array ∧ raised run.2 = [Open] ∧ open_resources run.2 = 0%nat.
Proof. vm_compute. repeat split; reflexivity. Qed.

(** * Further properties of MapFile *)

Lemma sys_mmap_Some w len fd s p s1 :
  sys_mmap w len fd s = (Some p, s1) →
  ∃ c, w_mmap w (st_trace s) fd len = Some c
    ∧ p = fresh (dom (st_mem s))
    ∧ s1 = mkState (st_fds s) (<[p := MappedFile len c]> (st_mem s))
                   (st_utf s) (st_jheap s)
                   (st_trace s ++ [EvMmap fd len (Some p)]).
Proof.
  unfold sys_mmap. case_decide; [done|]. case_match; [|done].
  intros [= <- <-]. eauto.
Qed.

(** All paths of MapFile at once: what is raised, what the messages say,
    and how far descriptors and memory can differ from before. *)
Lemma MapFile_outcomes w filename filesize s r s' :
  MapFile w filename filesize s = (r, s') →
  ∃ evs, st_trace s' = st_trace s ++ evs
    ∧ Forall (names_file filename) evs
    ∧ (SizeCheck ∈ raised_in evs → ∃ z, to_uint64 z > w_size_max w)
    ∧ (r.1 = None → raised_in evs ∈ MapFile_failures)
    ∧ (is_Some r.1 → raised_in evs = [])
    ∧ st_fds s ⊆ st_fds s'
    ∧ st_fds s' ⊆ {[fresh (st_fds s)]} ∪ st_fds s
    ∧ dom (st_mem s') ⊆ {[fresh (dom (st_mem s))]} ∪ dom (st_mem s).
Proof.
  unfold MapFile, MapFile_failures. unfold_prims. intros H.
  pose proof (is_fresh (st_fds s)).
  repeat (case_match; simplify_eq/=);
    rewrite <- ?app_assoc; simpl; (eexists; split; [reflexivity|]);
    (split; [repeat constructor; simpl; eauto|]);
    (split; [intros Hin; set_unfold; naive_solver|]);
    (split; [intros; set_solver|]);
    (split; [intros [? ?]; done|]);
    rewrite ?dom_insert_L; set_solver.
Qed.

Section MapFile_more_paths.
Context (w : World) (s : State) (filename : string) (filesize : Z).

(** X2.  The one path on which MapFile succeeds: open, fstat, size check
    passed, mmap and close all succeed.  It then returns the address of a
    new mapping and has stored its length in the caller's size; the
    mapping holds the bytes the file showed, the descriptor is closed
    again, and nothing is raised.  For a file size that is not negative
    the stored length is the file size itself: after the check the
    conversion to size_t loses nothing. *)
Theorem MapFile_success fd s1 st_size s2 p s3 s4 :
  sys_open w filename s = (Some fd, s1) →
  sys_fstat w fd s1 = (Some st_size, s2) →
  ¬ (to_uint64 st_size > w_size_max w) →
  sys_mmap w (to_size_t (w_size_max w) st_size) fd s2 = (Some p, s3) →
  sys_close w fd s3 = (0, s4) →
  MapFile w filename filesize s = (Some p, to_size_t (w_size_max w) st_size, s4)
  ∧ events_since s s4 =
      [EvOpen filename (Some fd); EvFstat fd (Some st_size);
       EvMmap fd (to_size_t (w_size_max w) st_size) (Some p); EvClose fd 0]
  ∧ st_fds s4 = st_fds s
  ∧ st_mem s !! p = None
  ∧ (∃ c, w_mmap w (st_trace s2) fd (to_size_t (w_size_max w) st_size) = Some c
        ∧ st_mem s4 = <[p := MappedFile (to_size_t (w_size_max w) st_size) c]> (st_mem s))
  ∧ (0 ≤ st_size < 2 ^ 63 → to_size_t (w_size_max w) st_size = st_size).
Proof.
  unfold MapFile. intros Ho Hs Hsz Hm Hc. step Ho. step Hs.
  rewrite decide_False by done. step Hm. step Hc.
  apply sys_close_inv in Hc as ->.
  apply sys_mmap_Some in Hm as (c & Hw & -> & ->).
  assert (st_trace s2 = st_trace s ++ [EvOpen filename (Some fd); EvFstat fd (Some st_size)]
          ∧ st_mem s2 = st_mem s ∧ st_fds s2 = {[fd]} ∪ st_fds s
          ∧ fd = fresh (st_fds s)) as (Ht2 & Hm2 & Hf2 & Hfd).
  { apply sys_fstat_inv in Hs as ->. apply sys_open_Some in Ho as [Hfd Hs1].
    rewrite Hs1. simpl. rewrite <- app_assoc. split_and!; [reflexivity..|exact Hfd]. }
  simpl. rewrite Hm2, Hf2. split_and!; try done.
  - apply events_since_app. simpl. rewrite Ht2. by rewrite <- !app_assoc.
  - rewrite Hfd. apply fresh_fd_released.
  - apply fresh_region_free.
  - eauto.
  - intros Hrange. unfold to_size_t, to_uint64 in *.
    rewrite Z.mod_small in Hsz by lia. apply Z.mod_small. lia.
Qed.

(** X3.  When close fails after a successful mmap, MapFile raises the
    Close error alone and returns null although the mapping exists: the
    descriptor is gone, the new region stays in memory, munmap has not
    been called, and the caller is given no address to unmap it with. *)
Theorem MapFile_close_failure_keeps_mapping fd s1 st_size s2 p s3 rc s4 :
  sys_open w filename s = (Some fd, s1) →
  sys_fstat w fd s1 = (Some st_size, s2) →
  ¬ (to_uint64 st_size > w_size_max w) →
  sys_mmap w (to_size_t (w_size_max w) st_size) fd s2 = (Some p, s3) →
  sys_close w fd s3 = (rc, s4) →
  rc ≠ 0 →
  ∃ s', MapFile w filename filesize s
          = (nullptr, to_size_t (w_size_max w) st_size, s')
    ∧ raised_in (events_since s s') = [Close]
    ∧ munmaps (events_since s s') = []
    ∧ st_fds s' = st_fds s
    ∧ st_mem s !! p = None
    ∧ is_Some (st_mem s' !! p)
    ∧ open_resources s' = S (open_resources s).
Proof.
  unfold MapFile. intros Ho Hs Hsz Hm Hc Hrc. step Ho. step Hs.
  rewrite decide_False by done. step Hm. step Hc.
  rewrite decide_True by done.
  apply sys_close_inv in Hc as ->.
  apply sys_mmap_Some in Hm as (c & Hw & -> & ->).
  apply sys_fstat_inv in Hs as ->. apply sys_open_Some in Ho as [-> ->].
  run_throws. eexists; split; [reflexivity|]. simpl.
  erewrite events_since_app by done.
  pose proof (fresh_region_free (st_mem s)) as Hfree.
  split_and!; try done.
  - apply fresh_fd_released.
  - rewrite lookup_insert_eq. eauto.
  - unfold open_resources. simpl.
    rewrite fresh_fd_released, map_size_insert_None by done. lia.
Qed.

(** X4.  When mmap fails and the close that follows succeeds, MapFile
    raises the Map error alone and returns null with the descriptor closed
    and no mapping made; the caller's size has been overwritten all the
    same. *)
Theorem MapFile_map_failure_holds_nothing fd s1 st_size s2 s3 s4 :
  sys_open w filename s = (Some fd, s1) →
  sys_fstat w fd s1 = (Some st_size, s2) →
  ¬ (to_uint64 st_size > w_size_max w) →
  sys_mmap w (to_size_t (w_size_max w) st_size) fd s2 = (None, s3) →
  sys_close w fd s3 = (0, s4) →
  ∃ s', MapFile w filename filesize s
          = (nullptr, to_size_t (w_size_max w) st_size, s')
    ∧ raised_in (events_since s s') = [Map]
    ∧ closes (events_since s s') = [fd]
    ∧ st_fds s' = st_fds s ∧ st_mem s' = st_mem s.
Proof.
  unfold MapFile. intros Ho Hs Hsz Hm Hc. step Ho. step Hs.
  rewrite decide_False by done. step Hm. step Hc.
  apply sys_close_inv in Hc as ->. apply sys_mmap_None in Hm as ->.
  apply sys_fstat_inv in Hs as ->. apply sys_open_Some in Ho as [-> ->].
  run_throws. eexists; split; [reflexivity|]. simpl.
  erewrite events_since_app by done.
  split_and!; try done. apply fresh_fd_released.
Qed.

(** X5.  MapFile returns null exactly when it has raised an error, and
    what it raises is one of: nothing, Open, Stat, SizeCheck, Map, Close
    then Map, or Close. *)
Theorem MapFile_null_iff_raised :
  let run := MapFile w filename filesize s in
  raised_in (events_since s run.2) ∈ [] :: MapFile_failures
  ∧ (run.1.1 = nullptr ↔ raised_in (events_since s run.2) ≠ []).
Proof.
  intros run. destruct run as [r s'] eqn:Hrun.
  destruct (MapFile_outcomes _ _ _ _ _ _ Hrun) as (evs & Ht & _ & _ & Hn & Hsome & _).
  simpl. rewrite (events_since_app _ _ _ Ht).
  destruct r.1 as [p|] eqn:Hr.
  - rewrite Hsome by eauto. split; [left|]. by split.
  - specialize (Hn eq_refl). split; [by right|].
    split; [|done]. intros _ E. rewrite E in Hn.
    unfold MapFile_failures in Hn. set_solver.
Qed.

(** X6.  With a 64-bit size_t the size check can never fire: no uint64_t
    exceeds the largest size_t, so MapFile never raises SizeCheck. *)
Theorem MapFile_size_check_unreachable_on_64_bit :
  w_size_max w = SIZE_MAX_64 →
  SizeCheck ∉ raised_in (events_since s (MapFile w filename filesize s).2).
Proof.
  intros H64. destruct (MapFile w filename filesize s) as [r s'] eqn:Hrun.
  destruct (MapFile_outcomes _ _ _ _ _ _ Hrun) as (evs & Ht & _ & Hsz & _).
  simpl. rewrite (events_since_app _ _ _ Ht). intros Hin.
  destruct (Hsz Hin) as [z Hz]. rewrite H64 in Hz.
  unfold to_uint64, SIZE_MAX_64 in Hz.
  pose proof (Z.mod_pos_bound z (2 ^ 64)). lia.
Qed.

(** X7.  Whatever path it takes, MapFile leaves the Java heap and the
    string characters alone, closes no descriptor and changes no region
    that existed before the call, and leaves at most one descriptor and at
    most one region more than it found. *)
Theorem MapFile_frame :
  let run := MapFile w filename filesize s in
  st_jheap run.2 = st_jheap s ∧ st_utf run.2 = st_utf s
  ∧ st_fds s ⊆ st_fds run.2
  ∧ st_fds run.2 ⊆ {[fresh (st_fds s)]} ∪ st_fds s
  ∧ st_mem s ⊆ st_mem run.2
  ∧ dom (st_mem run.2) ⊆ {[fresh (dom (st_mem s))]} ∪ dom (st_mem s)
  ∧ munmaps (events_since s run.2) = []
  ∧ opens (events_since s run.2) = [filename].
Proof.
  intros run. destruct run as [r s'] eqn:Hrun.
  destruct (MapFile_outcomes _ _ _ _ _ _ Hrun) as (evs & Ht & _ & _ & _ & _ & ? & ? & ?).
  destruct (MapFile_spec _ _ _ _ _ _ Hrun) as (evs' & Ht' & ? & ? & _ & ? & ? & ? & _).
  simpl. rewrite (events_since_app _ _ _ Ht'). by split_and!.
Qed.

(** X8.  Every error MapFile raises carries a message that ends with the
    name of the file it was called on. *)
Theorem MapFile_messages_name_the_file :
  Forall (names_file filename)
    (events_since s (MapFile w filename filesize s).2).
Proof.
  destruct (MapFile w filename filesize s) as [r s'] eqn:Hrun.
  destruct (MapFile_outcomes _ _ _ _ _ _ Hrun) as (evs & Ht & Hnames & _).
  simpl. by rewrite (events_since_app _ _ _ Ht).
Qed.

End MapFile_more_paths.

(** * Further properties of nativeGeneratePatchFile *)


Section fromFiles_more.
Context (w : World) (s : State) (old_filename new_filename : jstring).
Context (old_file new_file : string) (sa sb : State).
Hypothesis Hold : GetStringUTFChars old_filename s = (Some old_file, sa).
Hypothesis Hnew : GetStringUTFChars new_filename sa = (Some new_file, sb).


(** X10.  When an acquisition failed the encoder is never called: the
    call returns null, the Java heap is as before the call and no array is
    created. *)
Theorem fromFiles_failure_skips_encoder r1 s1 r2 s2 :
  MapFile w old_file (w_uninit w) sb = (r1, s1) →
  MapFile w new_file (w_uninit w) s1 = (r2, s2) →
  r1.1 = None ∨ r2.1 = None →
  ∃ s', nativeGeneratePatchFile w old_filename new_filename s = (null_array, s')
    ∧ encoder_calls (events_since s s') = []
    ∧ raised_in (events_since s s') ≠ []
    ∧ st_jheap s' = st_jheap s.
Proof.
  intros H1 H2 Hfail.
  destruct (fromFiles_failure_run _ _ _ _ _ _ _ _ Hold Hnew _ _ _ _ H1 H2 Hfail)
    as (s' & Hrun & Hev & _ & _ & _ & Hj).
  destruct (MapFile_spec _ _ _ _ _ _ H1) as (evs1 & Ht1 & _ & _ & He1 & _ & _ & _ & Hr1).
  destruct (MapFile_spec _ _ _ _ _ _ H2) as (evs2 & Ht2 & _ & _ & He2 & _ & _ & _ & Hr2).
  rewrite (events_since_app _ _ _ Ht1), (events_since_app _ _ _ Ht2) in Hev.
  exists s'. split; [done|]. rewrite Hev.
  unfold encoder_calls, raised_in, released in *. rewrite !omap_app, He1, He2.
  split_and!; [|destruct Hfail as [Hn|Hn]; rewrite Hn in *; intros E;
                 apply app_eq_nil in E as [? E]; try apply app_eq_nil in E as [? ?];
                 done|done].
  by repeat case_match.
Qed.

(** X11.  When both acquisitions failed, munmap is not called at all and
    at least two errors have been raised: those of the old file first,
    then those of the new file, the later ones while an earlier one was
    still pending. *)
Theorem fromFiles_both_failures r1 s1 r2 s2 :
  MapFile w old_file (w_uninit w) sb = (r1, s1) →
  MapFile w new_file (w_uninit w) s1 = (r2, s2) →
  r1.1 = None → r2.1 = None →
  ∃ s', nativeGeneratePatchFile w old_filename new_filename s = (null_array, s')
    ∧ munmaps (events_since s s') = []
    ∧ raised_in (events_since s s')
      = raised_in (events_since sb s1) ++ raised_in (events_since s1 s2)
    ∧ raised_in (events_since sb s1) ≠ []
    ∧ raised_in (events_since s1 s2) ≠ []
    ∧ (2 ≤ length (raised_in (events_since s s')))%nat.
Proof.
  intros H1 H2 Hn1 Hn2.
  destruct (fromFiles_failure_run _ _ _ _ _ _ _ _ Hold Hnew _ _ _ _ H1 H2 (or_introl Hn1))
    as (s' & Hrun & Hev & _).
  destruct (MapFile_spec _ _ _ _ _ _ H1) as (evs1 & Ht1 & _ & Hu1 & _ & _ & _ & _ & Hr1).
  destruct (MapFile_spec _ _ _ _ _ _ H2) as (evs2 & Ht2 & _ & Hu2 & _ & _ & _ & _ & Hr2).
  rewrite (events_since_app _ _ _ Ht1), (events_since_app _ _ _ Ht2) in *.
  rewrite Hn1 in Hr1. rewrite Hn2 in Hr2.
  exists s'. split; [done|]. rewrite Hev.
  unfold munmaps, raised_in, released in *. rewrite Hn1, Hn2. simpl.
  rewrite !omap_app, Hu1, Hu2. simpl. rewrite !app_nil_r.
  split_and!; try done.
  rewrite length_app.
  destruct (omap thrown_of evs1), (omap thrown_of evs2); simpl; try done. lia.
Qed.

(** X12.  Once both paths were retrieved, the characters of both are
    handed back to the JVM on every path through the call, whatever the
    acquisitions and the encoder did. *)
Theorem fromFiles_releases_string_chars :
  st_utf (nativeGeneratePatchFile w old_filename new_filename s).2 = st_utf s
  ∧ st_utf sb = S (S (st_utf s)).
Proof.
  destruct (MapFile w old_file (w_uninit w) sb) as [r1 s1] eqn:H1.
  destruct (MapFile w new_file (w_uninit w) s1) as [r2 s2] eqn:H2.
  split.
  - destruct (decide (r1.1 = None ∨ r2.1 = None)) as [Hfail|Hok].
    + destruct (fromFiles_failure_run _ _ _ _ _ _ _ _ Hold Hnew _ _ _ _ H1 H2 Hfail)
        as (s' & -> & _ & _ & _ & Hu & _). done.
    + destruct r1 as [[p1|] n1], r2 as [[p2|] n2];
        try (exfalso; apply Hok; simpl; by eauto).
      destruct (fromFiles_success_run _ _ _ _ _ _ _ _ Hold Hnew _ _ _ _ _ _ H1 H2)
        as (r & s' & -> & _ & _ & _ & _ & _ & _ & _ & Hu). done.
  - apply GetStringUTFChars_Some in Hnew as [_ ->].
    apply GetStringUTFChars_Some in Hold as [_ ->]. done.
Qed.

End fromFiles_more.

(** X13.  When exactly one of the two paths was retrieved, the call
    returns with the characters of that one still held: it raises
    ArgumentMissing and returns before the release of the characters is
    reached. *)
Theorem fromFiles_argument_missing_keeps_one_string w s old_filename new_filename chars :
  (old_filename = Some chars ∧ new_filename = None)
  ∨ (old_filename = None ∧ new_filename = Some chars) →
  let run := nativeGeneratePatchFile w old_filename new_filename s in
  run.1 = null_array
  ∧ st_utf run.2 = S (st_utf s)
  ∧ raised_in (events_since s run.2) = [ArgumentMissing].
Proof.
  intros [[-> ->]|[-> ->]] run; subst run;
    unfold nativeGeneratePatchFile, GetStringUTFChars; run_throws;
    (erewrite events_since_app by done); done.
Qed.

(** * Further properties of nativeGeneratePatchData *)

(** X14.  nativeGeneratePatchData never touches the file system, and its
    two buffers live exactly as long as the call: they are allocated first,
    released last (the new one before the old one) whatever the encoder
    returned, and native memory and descriptors are as before the call. *)
Theorem fromBuffers_buffers_scoped_to_call w s old_data new_data :
  let run := nativeGeneratePatchData w old_data new_data s in
  (∃ old_buf new_buf middle,
     events_since s run.2 =
       EvNew old_buf (Z.of_nat (length (array_bytes s old_data)))
       :: EvNew new_buf (Z.of_nat (length (array_bytes s new_data)))
       :: middle ++ [EvDelete new_buf; EvDelete old_buf]
     ∧ encoder_calls middle = [16])
  ∧ opens (events_since s run.2) = []
  ∧ mmaps (events_since s run.2) = []
  ∧ closes (events_since s run.2) = []
  ∧ munmaps (events_since s run.2) = []
  ∧ st_mem run.2 = st_mem s ∧ st_fds run.2 = st_fds s ∧ st_utf run.2 = st_utf s.
Proof.
  intros run. subst run.
  destruct (fromBuffers_run w s old_data new_data)
    as (r & s' & p1 & p2 & -> & Hev & _ & _ & _ & _ & Hf & Hm & Hu & _).
  simpl. rewrite Hev. split.
  - exists p1, p2.
    exists (EvBsdiff (array_bytes s old_data) (array_bytes s new_data) 16
              (w_bsdiff w (array_bytes s old_data) (array_bytes s new_data) 16).1
            :: failure_events
                 (w_bsdiff w (array_bytes s old_data) (array_bytes s new_data) 16).1).
    split; [reflexivity|]. unfold failure_events. by case_decide.
  - unfold failure_events. by case_decide.
Qed.


(** X18.  Whenever the encoder returns a non-zero code,
    nativeGeneratePatchData returns null, AlgorithmFailure is the one error
    raised, and no Java array is created, whatever the encoder wrote. *)
Theorem fromBuffers_encoder_failure_reported w s old_data new_data :
  (w_bsdiff w (array_bytes s old_data) (array_bytes s new_data) 16).1 ≠ 0 →
  ∃ s', nativeGeneratePatchData w old_data new_data s = (null_array, s')
    ∧ encoder_calls (events_since s s') = [16]
    ∧ raised_in (events_since s s') = [AlgorithmFailure]
    ∧ st_jheap s' = st_jheap s.
Proof.
  intros Hrc.
  destruct (fromBuffers_run w s old_data new_data)
    as (r & s' & p1 & p2 & Hrun & Hev & Htr & _ & _ & _ & _ & _ & _ & Hres).
  cbv zeta in Hev, Hres. rewrite decide_True in Hres by done.
  destruct Hres as [-> Hj]. exists s'. rewrite Hev.
  unfold failure_events. rewrite decide_True by done. by split_and!.
Qed.



(** * More concrete runs *)

Lemma MapFile_open_failure_witness :
  ∃ s', MapFile world64 "absent" 7 initial = (nullptr, 7, s')
        ∧ st_fds s' = ∅ ∧ st_mem s' = ∅.
Proof.
  destruct (MapFile_open_failure world64 initial "absent" 7
              (sys_open world64 "absent" initial).2)
    as (s' & Hrun & _ & Hf & Hm); [vm_compute; reflexivity|].
  exists s'. exact (conj Hrun (conj Hf Hm)).
Defined.

Lemma MapFile_success_witness :
  MapFile world64 "old" 7 initial
  = (Some 1%positive, 3,
     (sys_close world64 0%nat
        (sys_mmap world64 3 0%nat
           (sys_fstat world64 0%nat (sys_open world64 "old" initial).2).2).2).2).
Proof.
  set (s1 := (sys_open world64 "old" initial).2).
  set (s2 := (sys_fstat world64 0%nat s1).2).
  set (s3 := (sys_mmap world64 3 0%nat s2).2).
  set (s4 := (sys_close world64 0%nat s3).2).
  destruct (MapFile_success world64 initial "old" 7 0%nat s1 3 s2 1%positive s3 s4)
    as (Hrun & _);
    [vm_compute; reflexivity | vm_compute; reflexivity
    | intros H; vm_compute in H; discriminate
    | vm_compute; reflexivity | vm_compute; reflexivity |].
  exact Hrun.
Defined.

Lemma MapFile_close_failure_keeps_mapping_witness :
  ∃ s', MapFile world64 "noclose" 7 initial = (nullptr, 2, s')
        ∧ raised_in (events_since initial s') = [Close]
        ∧ open_resources s' = S (open_resources initial).
Proof.
  set (s1 := (sys_open world64 "noclose" initial).2).
  set (s2 := (sys_fstat world64 0%nat s1).2).
  set (s3 := (sys_mmap world64 2 0%nat s2).2).
  set (s4 := (sys_close world64 0%nat s3).2).
  destruct (MapFile_close_failure_keeps_mapping world64 initial "noclose" 7
              0%nat s1 2 s2 1%positive s3 (-1) s4)
    as (s' & Hrun & Hr & _ & _ & _ & _ & Hres);
    [vm_compute; reflexivity | vm_compute; reflexivity
    | intros H; vm_compute in H; discriminate
    | vm_compute; reflexivity | vm_compute; reflexivity | discriminate |].
  exists s'. exact (conj Hrun (conj Hr Hres)).
Defined.

Lemma MapFile_map_failure_holds_nothing_witness :
  ∃ s', MapFile world64_more "nomap_closed" 7 initial = (nullptr, 8, s')
        ∧ raised_in (events_since initial s') = [Map]
        ∧ st_fds s' = ∅ ∧ st_mem s' = ∅.
Proof.
  set (s1 := (sys_open world64_more "nomap_closed" initial).2).
  set (s2 := (sys_fstat world64_more 0%nat s1).2).
  set (s3 := (sys_mmap world64_more 8 0%nat s2).2).
  set (s4 := (sys_close world64_more 0%nat s3).2).
  destruct (MapFile_map_failure_holds_nothing world64_more initial "nomap_closed" 7
              0%nat s1 8 s2 s3 s4)
    as (s' & Hrun & Hr & _ & Hf & Hm);
    [vm_compute; reflexivity | vm_compute; reflexivity
    | intros H; vm_compute in H; discriminate
    | vm_compute; reflexivity | vm_compute; reflexivity |].
  exists s'. exact (conj Hrun (conj Hr (conj Hf Hm))).
Defined.

Lemma MapFile_size_check_unreachable_on_64_bit_witness :
  w_size_max world64 = SIZE_MAX_64
  ∧ SizeCheck ∉ raised_in (events_since initial (MapFile world64 "huge" 7 initial).2).
Proof.
  split; [reflexivity|].
  exact (MapFile_size_check_unreachable_on_64_bit world64 initial "huge" 7 eq_refl).
Defined.


Lemma fromFiles_failure_skips_encoder_witness :
  ∃ s', nativeGeneratePatchFile world64 (Some "absent"%string) (Some "new"%string)
          initial = (null_array, s')
        ∧ encoder_calls (events_since initial s') = []
        ∧ st_jheap s' = ∅.
Proof.
  set (w := world64).
  set (sa := (GetStringUTFChars (Some "absent"%string) initial).2).
  set (sb := (GetStringUTFChars (Some "new"%string) sa).2).
  set (s1 := (MapFile w "absent" 0 sb).2).
  set (s2 := (MapFile w "new" 0 s1).2).
  destruct (fromFiles_failure_skips_encoder w initial (Some "absent"%string)
              (Some "new"%string) "absent" "new" sa sb eq_refl eq_refl
              (nullptr, 0) s1 (Some 1%positive, 4) s2)
    as (s' & Hrun & He & _ & Hj);
    [vm_compute; reflexivity | vm_compute; reflexivity | by left |].
  exists s'. exact (conj Hrun (conj He Hj)).
Defined.

Lemma fromFiles_both_failures_witness :
  ∃ s', nativeGeneratePatchFile world64 (Some "absent"%string) (Some "nostat"%string)
          initial = (null_array, s')
        ∧ munmaps (events_since initial s') = []
        ∧ (2 ≤ length (raised_in (events_since initial s')))%nat.
Proof.
  set (w := world64).
  set (sa := (GetStringUTFChars (Some "absent"%string) initial).2).
  set (sb := (GetStringUTFChars (Some "nostat"%string) sa).2).
  set (s1 := (MapFile w "absent" 0 sb).2).
  set (s2 := (MapFile w "nostat" 0 s1).2).
  destruct (fromFiles_both_failures w initial (Some "absent"%string)
              (Some "nostat"%string) "absent" "nostat" sa sb eq_refl eq_refl
              (nullptr, 0) s1 (nullptr, 0) s2)
    as (s' & Hrun & Hu & _ & _ & _ & Hlen);
    [vm_compute; reflexivity | vm_compute; reflexivity
    | reflexivity | reflexivity |].
  exists s'. exact (conj Hrun (conj Hu Hlen)).
Defined.

Lemma fromFiles_releases_string_chars_witness :
  st_utf (nativeGeneratePatchFile world64 (Some "old"%string) (Some "nomap"%string)
            initial).2 = 0%nat.
Proof.
  set (sa := (GetStringUTFChars (Some "old"%string) initial).2).
  set (sb := (GetStringUTFChars (Some "nomap"%string) sa).2).
  exact (proj1 (fromFiles_releases_string_chars world64 initial (Some "old"%string)
                  (Some "nomap"%string) "old" "nomap" sa sb eq_refl eq_refl)).
Defined.

Lemma fromFiles_argument_missing_keeps_one_string_witness :
  st_utf (nativeGeneratePatchFile world64 None (Some "new"%string) initial).2 = 1%nat.
Proof.
  exact (proj1 (proj2 (fromFiles_argument_missing_keeps_one_string world64 initial
                         None (Some "new"%string) "new"
                         (or_intror (conj eq_refl eq_refl))))).
Defined.

Lemma fromFiles_one_failure_releases_survivor_witness :
  ∃ s', nativeGeneratePatchFile world64 (Some "nostat"%string) (Some "new"%string)
          initial = (null_array, s')
        ∧ munmaps (events_since initial s') = [(1%positive, 4)]
        ∧ st_mem s' !! 1%positive = None.
Proof.
  set (w := world64).
  set (sa := (GetStringUTFChars (Some "nostat"%string) initial).2).
  set (sb := (GetStringUTFChars (Some "new"%string) sa).2).
  set (s1 := (MapFile w "nostat" 0 sb).2).
  set (s2 := (MapFile w "new" 0 s1).2).
  destruct (fromFiles_one_failure_releases_survivor w initial (Some "nostat"%string)
              (Some "new"%string) "nostat" "new" sa sb eq_refl eq_refl
              (nullptr, 0) s1 (Some 1%positive, 4) s2 1%positive 4)
    as (s' & Hrun & Hu & Hm & _);
    [vm_compute; reflexivity | vm_compute; reflexivity | by right |].
  exists s'. exact (conj Hrun (conj Hu Hm)).
Defined.

Lemma fromFiles_failure_holds_what_acquisitions_left_witness :
  ∃ s', nativeGeneratePatchFile world64 (Some "absent"%string) (Some "new"%string)
          initial = (null_array, s')
        ∧ st_fds s' = ∅ ∧ st_mem s' = ∅.
Proof.
  set (w := world64).
  set (sa := (GetStringUTFChars (Some "absent"%string) initial).2).
  set (sb := (GetStringUTFChars (Some "new"%string) sa).2).
  set (s1 := (MapFile w "absent" 0 sb).2).
  set (s2 := (MapFile w "new" 0 s1).2).
  destruct (fromFiles_failure_holds_what_acquisitions_left w initial
              (Some "absent"%string) (Some "new"%string) "absent" "new" sa sb
              eq_refl eq_refl (nullptr, 0) s1 (Some 1%positive, 4) s2)
    as (s' & Hrun & Hf & Hm & _);
    [vm_compute; reflexivity | vm_compute; reflexivity | by left
    | intros _; split; vm_compute; reflexivity | discriminate |].
  exists s'. exact (conj Hrun (conj Hf Hm)).
Defined.


Lemma fromBuffers_encoder_failure_reported_witness :
  ∃ s', nativeGeneratePatchData world64_failing 1 2 two_arrays = (null_array, s')
        ∧ raised_in (events_since two_arrays s') = [AlgorithmFailure]
        ∧ st_jheap s' = st_jheap two_arrays.
Proof.
  destruct (fromBuffers_encoder_failure_reported world64_failing two_arrays 1 2)
    as (s' & Hrun & _ & Hr & Hj); [intros H; vm_compute in H; discriminate|].
  exists s'. exact (conj Hrun (conj Hr Hj)).
Defined.


